(** * The dialog lifecycle controller of app-tools (dialog/index.js)

    A shallow embedding of the [Dialog] class: its instance fields, the
    [<dialog>] elements it creates, the two awaitable signals, and the
    asynchronous bodies of [open] and [__onDialogClose], cut at their
    [await]s into the segments the JavaScript event loop runs one at a
    time.  The platform pieces the class calls ([showModal], the native
    [close], promises, the microtask queue) follow the HTML and ECMAScript
    standards.

    Hooks and event listeners are caller-supplied code: a hook is modelled
    by the way its call completes, a listener by the event recorded in the
    trace; neither calls back into the controller.  [modify] hands the
    surface to arbitrary caller code and is left out. *)

From stdpp Require Import base strings list gmap.

Local Open Scope string_scope.
Local Open Scope list_scope.

(** ** Values thrown *)

Inductive JsError :=
| Error (message : string)      (* new Error(message) *)
| TypeError                     (* a method called on undefined *)
| InvalidStateError             (* DOMException of showModal *)
| Thrown (value : string).      (* whatever a hook throws *)

(** ** Lifecycle phases: the event kinds, the marker attributes, the hook names *)

Inductive Phase := POpening | POpened | PClosing | PClosed.

Definition phase_name (p : Phase) : string :=
  match p with
  | POpening => "opening"
  | POpened => "opened"
  | PClosing => "closing"
  | PClosed => "closed"
  end.

(** ** The configuration: kind identifier to hook set *)

(** A hook is caller-supplied code.  The controller only observes how the
    call completes: it returns (a plain value, or a promise that fulfils),
    it throws while being called, or it returns a promise that rejects. *)
Inductive HookBehaviour :=
| HReturns
| HThrows (e : JsError)
| HRejects (e : JsError).

Module Hook.
Record t := make {
  opening : option HookBehaviour;
  opened : option HookBehaviour;
  closing : option HookBehaviour;
  closed : option HookBehaviour
}.

Definition get (p : Phase) (h : t) : option HookBehaviour :=
  match p with
  | POpening => opening h
  | POpened => opened h
  | PClosing => closing h
  | PClosed => closed h
  end.

Definition none : t := make None None None None.
End Hook.

(** The config is a JavaScript object: its own properties are the
    registered kinds; an object written as a literal also inherits the
    properties of [Object.prototype], which the [in] operator sees. *)
Record Config := {
  own : gmap string Hook.t;
  inheritsObjectPrototype : bool
}.

Definition object_prototype_keys : list string :=
  [ "constructor"; "__defineGetter__"; "__defineSetter__"; "hasOwnProperty";
    "__lookupGetter__"; "__lookupSetter__"; "isPrototypeOf";
    "propertyIsEnumerable"; "toString"; "valueOf"; "__proto__";
    "toLocaleString" ].

(** [id in config] *)
Definition has_property (id : string) (c : Config) : bool :=
  bool_decide (is_Some (own c !! id))
  || (inheritsObjectPrototype c && bool_decide (id ∈ object_prototype_keys)).

(** [config[id]?.phase]: an inherited property is a built-in function or
    object, none of which has a property named after a phase. *)
Definition hook (p : Phase) (id : string) (c : Config) : option HookBehaviour :=
  own c !! id ≫= Hook.get p.

Definition registered (id : string) (c : Config) : Prop := is_Some (own c !! id).

(** ** The surface: a [<dialog>] element *)

Definition APP_TOOLS : string := "app-tools".

Record DialogNode := {
  attributes : list string;
  isConnected : bool;
  returnValue : string
}.

Definition hasAttribute (name : string) (d : DialogNode) : bool :=
  bool_decide (name ∈ attributes d).

Definition setAttribute (name : string) (d : DialogNode) : DialogNode :=
  {| attributes := if hasAttribute name d then attributes d else attributes d ++ [name];
     isConnected := isConnected d;
     returnValue := returnValue d |}.

Definition removeAttribute (name : string) (d : DialogNode) : DialogNode :=
  {| attributes := filter (λ a, a ≠ name) (attributes d);
     isConnected := isConnected d;
     returnValue := returnValue d |}.

Definition connect (b : bool) (d : DialogNode) : DialogNode :=
  {| attributes := attributes d; isConnected := b; returnValue := returnValue d |}.

Definition setReturnValue (v : option string) (d : DialogNode) : DialogNode :=
  {| attributes := attributes d;
     isConnected := isConnected d;
     returnValue := default (returnValue d) v |}.

(** ** Suspended async functions, jobs, observable effects *)

Definition Params := option string.

Inductive Signal := SOpened | SClosed.

(** Where an async function is suspended, with its local variables. *)
Inductive Frame :=
| OpenAwaitOpeningHook (id : string) (parameters : Params)
| OpenAwaitPaint (id : string) (parameters : Params)
| OpenAwaitAnimations (id : string) (parameters : Params)
| OpenAwaitOpenedHook (id : string) (parameters : Params)
| CloseAwaitClosingHook (id : string) (d : nat)
| CloseAwaitAnimations (id : string) (d : nat)
| CloseAwaitClosedHook (id : string) (d : nat).

(** A job of the microtask queue: the continuation of call [call] at frame
    [f], resumed normally ([None]) or with a rejection; or application code
    that awaited a signal and now receives its value. *)
Inductive Job :=
| Continue (call : nat) (f : Frame) (r : option JsError)
| Resume (s : Signal) (waiter : nat) (value : nat).

Inductive LogSite :=
| LogClosing | LogClosed | LogAlreadyOpen | LogOpening | LogOpened
| LogHookError (p : Phase).

Inductive Effect :=
| ELog (site : LogSite) (id : string)
| EDispatch (kind : Phase) (id : string) (d : nat)   (* DialogStateEvent *)
| EHook (p : Phase) (id : string) (d : nat)          (* a hook is called *)
| EPaint                                              (* onePaint() *)
| EAnimations (d : nat).                              (* animationsComplete(d) *)

(** How a segment of code ends. *)
Inductive Completion :=
| Returned
| Threw (e : JsError)
| Await (f : Frame) (r : option JsError).

(** ** The controller and its world *)

(** The fields of a [Dialog] instance.  Promises and elements are referred
    to by their index in the world. *)
Record Dialog := {
  id : string;
  config : Config;
  isOpen : bool;
  opened : nat;
  resolveOpened : nat;
  closed : nat;
  resolveClosed : nat;
  dialog : option nat
}.

Record World := {
  this : Dialog;
  nodes : list DialogNode;                    (* every element created *)
  promises : list (option nat);               (* None: pending *)
  reactions : list (nat * (Signal * nat));    (* promise, awaiting code *)
  microtasks : list Job;
  pending : list Job;                         (* awaiting a pending promise *)
  closeEvents : list nat;                     (* queued close event tasks *)
  trace : list Effect;
  settled : list (nat * option JsError);      (* finished async calls *)
  nextCall : nat
}.

Definition init (c : Config) : World := {|
  this := {| id := ""; config := c; isOpen := false;
             opened := 0; resolveOpened := 0; closed := 1; resolveClosed := 1;
             dialog := None |};
  nodes := []; promises := [None; None]; reactions := [];
  microtasks := []; pending := []; closeEvents := [];
  trace := []; settled := []; nextCall := 0
|}.

(** *** Field updates *)

Definition with_this (f : Dialog → Dialog) (w : World) : World :=
  {| this := f (this w); nodes := nodes w; promises := promises w;
     reactions := reactions w; microtasks := microtasks w; pending := pending w;
     closeEvents := closeEvents w; trace := trace w; settled := settled w;
     nextCall := nextCall w |}.

Definition set_id (v : string) : World → World :=
  with_this (λ t, {| id := v; config := config t; isOpen := isOpen t;
                     opened := opened t; resolveOpened := resolveOpened t;
                     closed := closed t; resolveClosed := resolveClosed t;
                     dialog := dialog t |}).

Definition set_isOpen (v : bool) : World → World :=
  with_this (λ t, {| id := id t; config := config t; isOpen := v;
                     opened := opened t; resolveOpened := resolveOpened t;
                     closed := closed t; resolveClosed := resolveClosed t;
                     dialog := dialog t |}).

Definition set_dialog (v : option nat) : World → World :=
  with_this (λ t, {| id := id t; config := config t; isOpen := isOpen t;
                     opened := opened t; resolveOpened := resolveOpened t;
                     closed := closed t; resolveClosed := resolveClosed t;
                     dialog := v |}).

Definition set_opened (p : nat) : World → World :=
  with_this (λ t, {| id := id t; config := config t; isOpen := isOpen t;
                     opened := p; resolveOpened := p;
                     closed := closed t; resolveClosed := resolveClosed t;
                     dialog := dialog t |}).

Definition set_closed (p : nat) : World → World :=
  with_this (λ t, {| id := id t; config := config t; isOpen := isOpen t;
                     opened := opened t; resolveOpened := resolveOpened t;
                     closed := p; resolveClosed := p;
                     dialog := dialog t |}).

Definition set_nodes (v : list DialogNode) (w : World) : World :=
  {| this := this w; nodes := v; promises := promises w;
     reactions := reactions w; microtasks := microtasks w; pending := pending w;
     closeEvents := closeEvents w; trace := trace w; settled := settled w;
     nextCall := nextCall w |}.

Definition set_promises (v : list (option nat)) (w : World) : World :=
  {| this := this w; nodes := nodes w; promises := v;
     reactions := reactions w; microtasks := microtasks w; pending := pending w;
     closeEvents := closeEvents w; trace := trace w; settled := settled w;
     nextCall := nextCall w |}.

Definition set_reactions (v : list (nat * (Signal * nat))) (w : World) : World :=
  {| this := this w; nodes := nodes w; promises := promises w;
     reactions := v; microtasks := microtasks w; pending := pending w;
     closeEvents := closeEvents w; trace := trace w; settled := settled w;
     nextCall := nextCall w |}.

Definition set_microtasks (v : list Job) (w : World) : World :=
  {| this := this w; nodes := nodes w; promises := promises w;
     reactions := reactions w; microtasks := v; pending := pending w;
     closeEvents := closeEvents w; trace := trace w; settled := settled w;
     nextCall := nextCall w |}.

Definition set_pending (v : list Job) (w : World) : World :=
  {| this := this w; nodes := nodes w; promises := promises w;
     reactions := reactions w; microtasks := microtasks w; pending := v;
     closeEvents := closeEvents w; trace := trace w; settled := settled w;
     nextCall := nextCall w |}.

Definition set_closeEvents (v : list nat) (w : World) : World :=
  {| this := this w; nodes := nodes w; promises := promises w;
     reactions := reactions w; microtasks := microtasks w; pending := pending w;
     closeEvents := v; trace := trace w; settled := settled w;
     nextCall := nextCall w |}.

Definition set_settled (v : list (nat * option JsError)) (w : World) : World :=
  {| this := this w; nodes := nodes w; promises := promises w;
     reactions := reactions w; microtasks := microtasks w; pending := pending w;
     closeEvents := closeEvents w; trace := trace w; settled := v;
     nextCall := nextCall w |}.

Definition set_nextCall (v : nat) (w : World) : World :=
  {| this := this w; nodes := nodes w; promises := promises w;
     reactions := reactions w; microtasks := microtasks w; pending := pending w;
     closeEvents := closeEvents w; trace := trace w; settled := settled w;
     nextCall := v |}.

(** Appends an observable effect to the trace. *)
Definition effect (e : Effect) (w : World) : World :=
  {| this := this w; nodes := nodes w; promises := promises w;
     reactions := reactions w; microtasks := microtasks w; pending := pending w;
     closeEvents := closeEvents w; trace := trace w ++ [e]; settled := settled w;
     nextCall := nextCall w |}.

Definition log (site : LogSite) (i : string) : World → World := effect (ELog site i).

(** [this.dispatchEvent(new DialogStateEvent(kind, {id, dialog}))] *)
Definition dispatchEvent (kind : Phase) (i : string) (d : nat) : World → World :=
  effect (EDispatch kind i d).

Definition on_node (f : DialogNode → DialogNode) (n : nat) (w : World) : World :=
  set_nodes (alter f n (nodes w)) w.

(** ** Platform primitives *)

(** [new Promise((resolve) => {...})]: a fresh pending promise. *)
Definition newPromise (w : World) : nat * World :=
  (length (promises w), set_promises (promises w ++ [None]) w).

Definition reaction_job (v : nat) (r : nat * (Signal * nat)) : Job :=
  Resume (fst (snd r)) (snd (snd r)) v.

(** Calling the resolve function of promise [p] with the element [v]: a
    pending promise is fulfilled and the code awaiting it is queued, in the
    order it started to wait; a settled promise stays as it is. *)
Definition resolve (p v : nat) (w : World) : World :=
  match promises w !! p with
  | Some None =>
      let woken := filter (λ r, fst r = p) (reactions w) in
      let others := filter (λ r, fst r ≠ p) (reactions w) in
      set_microtasks (microtasks w ++ (reaction_job v <$> woken))
        (set_reactions others (set_promises (<[p := Some v]> (promises w)) w))
  | _ => w
  end.

(** [await promise] in application code. *)
Definition awaitPromise (s : Signal) (waiter p : nat) (w : World) : World :=
  match promises w !! p with
  | Some (Some v) => set_microtasks (microtasks w ++ [Resume s waiter v]) w
  | _ => set_reactions (reactions w ++ [(p, (s, waiter))]) w
  end.

(** [element.showModal()], HTML Living Standard: an element already shown
    as a modal is left alone, one that is not connected is refused.  The
    controller shows elements through [showModal] only, so an element with
    the [open] attribute is a modal one. *)
Definition showModal (n : nat) (w : World) : JsError + World :=
  match nodes w !! n with
  | None => inl TypeError
  | Some d =>
      if hasAttribute "open" d then inr w
      else if isConnected d then inr (on_node (setAttribute "open") n w)
      else inl InvalidStateError
  end.

(** Closing a dialog element with a result (HTML Living Standard, "close the
    dialog"): nothing when the element is not open; otherwise the [open]
    attribute goes, a result that was given becomes the return value, and a
    task is queued that fires the [close] event. *)
Definition nativeClose (n : nat) (result : option string) (w : World) : World :=
  match nodes w !! n with
  | Some d =>
      if hasAttribute "open" d
      then set_closeEvents (closeEvents w ++ [n])
             (on_node (λ d, setReturnValue result (removeAttribute "open" d)) n w)
      else w
  | None => w
  end.

(** ** The methods of [Dialog] *)

(** [__initDialogNode]: the new element carries the [app-tools] attribute,
    the two listeners and an empty [app-tools] form as its only content. *)
Definition initDialogNode (w : World) : nat * World :=
  (length (nodes w),
   set_nodes (nodes w ++ [{| attributes := [APP_TOOLS];
                             isConnected := false;
                             returnValue := "" |}]) w).

(** [try { await config[id]?.phase?.({dialog, ...}) } catch (e) { log; throw e }]
    up to the suspension: a hook that throws while being called is caught
    at once; otherwise the function is suspended at frame [k].
    [logged w] is the identifier the catch block prints. *)
Definition awaitHook (p : Phase) (i : string) (d : nat) (k : Frame)
    (logged : World → string) (w : World) : Completion * World :=
  match hook p i (config (this w)) with
  | None => (Await k None, w)
  | Some HReturns => (Await k None, effect (EHook p i d) w)
  | Some (HRejects e) => (Await k (Some e), effect (EHook p i d) w)
  | Some (HThrows e) =>
      let w := effect (EHook p i d) w in
      (Threw e, log (LogHookError p) (logged w) w)
  end.

(** The catch block when the awaited promise rejected. *)
Definition rethrow (p : Phase) (logged : World → string) (e : JsError)
    (w : World) : Completion * World :=
  (Threw e, log (LogHookError p) (logged w) w).

(** An event target inside the subtree of a surface: the surface element
    itself, or a descendant with its node name (the form is ["FORM"]). *)
Inductive Target :=
| TSurface
| TDescendant (name : string).

Definition nodeName (t : Target) : string :=
  match t with
  | TSurface => "DIALOG"
  | TDescendant name => name
  end.

(** [close = (kind = 'programmatic') => { this.__dialog?.close(kind); }] *)
Definition close (kind : option string) (w : World) : Completion * World :=
  match dialog (this w) with
  | None => (Returned, w)
  | Some n => (Returned, nativeClose n (Some (default "programmatic" kind)) w)
  end.

(** [__onLightDismiss = ({target}) => {...}] *)
Definition onLightDismiss (target : Target) (w : World) : Completion * World :=
  if bool_decide (nodeName target = "DIALOG")
  then close (Some "dismiss") w
  else (Returned, w).

(** [__onDialogClose], up to its first suspension. *)
Definition onDialogClose (w : World) : Completion * World :=
  let i := id (this w) in
  let w := log LogClosing i w in
  match dialog (this w) with
  | None => (Threw TypeError, w)
  | Some d =>
      let w := on_node (removeAttribute "opened") d w in
      let w := on_node (setAttribute "closing") d w in
      let w := dispatchEvent PClosing i d w in
      awaitHook PClosing i d (CloseAwaitClosingHook i d) (λ _, i) w
  end.

(** [open({id, parameters})], up to its first suspension. *)
Definition open (i : string) (parameters : Params) (w : World) : Completion * World :=
  if negb (has_property i (config (this w)))
  then (Threw (Error ("No dialog configured for id: " +:+ i)), w)
  else
    let w := set_id i w in
    if isOpen (this w)
    then (Returned, log LogAlreadyOpen i w)
    else
      let '(n, w) := initDialogNode w in
      let w := set_dialog (Some n) w in
      let w := on_node (connect true) n w in
      let w := log LogOpening i w in
      let w := on_node (setAttribute "opening") n w in
      let w := dispatchEvent POpening i n w in
      awaitHook POpening i n (OpenAwaitOpeningHook i parameters) (λ w, id (this w)) w.

(** The code that follows each [await], up to the next suspension or to the
    end of the function.  [r] is the rejection of the awaited promise, if
    it rejected. *)
Definition resume (f : Frame) (r : option JsError) (w : World) : Completion * World :=
  match f with
  | OpenAwaitOpeningHook i parameters =>
      match r with
      | Some e => rethrow POpening (λ w, id (this w)) e w
      | None => (Await (OpenAwaitPaint i parameters) None, effect EPaint w)
      end
  | OpenAwaitPaint i parameters =>
      match dialog (this w) with
      | None => (Threw TypeError, w)
      | Some n =>
          match showModal n w with
          | inl e => (Threw e, w)
          | inr w => (Await (OpenAwaitAnimations i parameters) None,
                      effect (EAnimations n) w)
          end
      end
  | OpenAwaitAnimations i parameters =>
      let w := set_isOpen true w in
      match dialog (this w) with
      | None => (Threw TypeError, w)
      | Some n =>
          let w := on_node (removeAttribute "opening") n w in
          let w := on_node (setAttribute "opened") n w in
          let w := resolve (resolveOpened (this w)) n w in
          let w := dispatchEvent POpened i n w in
          awaitHook POpened i n (OpenAwaitOpenedHook i parameters) (λ w, id (this w)) w
      end
  | OpenAwaitOpenedHook i parameters =>
      match r with
      | Some e => rethrow POpened (λ w, id (this w)) e w
      | None =>
          let w := log LogOpened i w in
          let '(p, w) := newPromise w in
          (Returned, set_closed p w)
      end
  | CloseAwaitClosingHook i d =>
      match r with
      | Some e => rethrow PClosing (λ _, i) e w
      | None => (Await (CloseAwaitAnimations i d) None, effect (EAnimations d) w)
      end
  | CloseAwaitAnimations i d =>
      let w := set_isOpen false w in
      let w := on_node (removeAttribute "closing") d w in
      let w := on_node (setAttribute "closed") d w in
      let w := resolve (resolveClosed (this w)) d w in
      let w := dispatchEvent PClosed i d w in
      awaitHook PClosed i d (CloseAwaitClosedHook i d) (λ _, i) w
  | CloseAwaitClosedHook i d =>
      match r with
      | Some e => rethrow PClosed (λ _, i) e w
      | None =>
          let w := log LogClosed i w in
          let w := on_node (connect false) d w in
          let w := set_dialog None w in
          let '(p, w) := newPromise w in
          let w := set_opened p w in
          (Returned, set_id "" w)
      end
  end.

(** ** The event loop *)

(** What the environment does next. *)
Inductive Action :=
| CallOpen (id : string) (parameters : Params)   (* dialog.open({id, parameters}) *)
| CallClose (kind : option string)               (* dialog.close(kind) *)
| Mousedown (n : nat) (target : Target)          (* mousedown reaching element n *)
| Dismiss (n : nat)                              (* Escape: closed with no result *)
| AwaitSignal (s : Signal) (waiter : nat)        (* await dialog.opened / closed *)
| Tick                                           (* run the oldest microtask *)
| Settle (k : nat)                               (* a pending promise settles *)
| FireClose.                                     (* run the oldest close event task *)

(** The end of a segment of async call [c]: its promise settles, or it is
    parked until the promise it awaits settles. *)
Definition finish (c : nat) (r : Completion * World) : World :=
  match r with
  | (Returned, w) => set_settled (settled w ++ [(c, None)]) w
  | (Threw e, w) => set_settled (settled w ++ [(c, Some e)]) w
  | (Await f r, w) => set_pending (pending w ++ [Continue c f r]) w
  end.

Definition signal (s : Signal) (w : World) : nat :=
  match s with
  | SOpened => opened (this w)
  | SClosed => closed (this w)
  end.

(** One step of the environment; [None] when the action is not enabled.
    Event tasks start with an empty microtask queue. *)
Definition step (w : World) (a : Action) : option World :=
  match a with
  | CallOpen i parameters =>
      let c := nextCall w in
      Some (finish c (open i parameters (set_nextCall (S c) w)))
  | CallClose kind => Some (snd (close kind w))
  | Mousedown n target =>
      if bool_decide (n < length (nodes w))
      then Some (snd (onLightDismiss target w))
      else None
  | Dismiss n => Some (nativeClose n None w)
  | AwaitSignal s waiter => Some (awaitPromise s waiter (signal s w) w)
  | Tick =>
      match microtasks w with
      | [] => None
      | Continue c f r :: rest => Some (finish c (resume f r (set_microtasks rest w)))
      | Resume _ _ _ :: rest => Some (set_microtasks rest w)
      end
  | Settle k =>
      match pending w !! k with
      | None => None
      | Some j => Some (set_microtasks (microtasks w ++ [j])
                          (set_pending (delete k (pending w)) w))
      end
  | FireClose =>
      match microtasks w, closeEvents w with
      | [], _ :: rest =>
          let c := nextCall w in
          Some (finish c (onDialogClose (set_closeEvents rest (set_nextCall (S c) w))))
      | _, _ => None
      end
  end.

Fixpoint run (l : list Action) (w : World) : option World :=
  match l with
  | [] => Some w
  | a :: l => step w a ≫= run l
  end.

Definition reachable (c : Config) (w : World) : Prop :=
  ∃ l, run l (init c) = Some w.

(** ** Example configurations, runs and observations *)

Definition all_hooks : Hook.t :=
  Hook.make (Some HReturns) (Some HReturns) (Some HReturns) (Some HReturns).

(** [new Dialog({foo: {opening, opened, closing, closed}})] *)
Definition foo_config : Config :=
  {| own := {[ "foo" := all_hooks ]}; inheritsObjectPrototype := true |}.

(** [new Dialog({foo: {...}, bar: {}})] *)
Definition foo_bar_config : Config :=
  {| own := <["bar" := Hook.none]> {[ "foo" := all_hooks ]};
     inheritsObjectPrototype := true |}.

(** One kind, [bar], with one failing hook. *)
Definition failing_config (p : Phase) (h : HookBehaviour) : Config :=
  {| own := {[ "bar" :=
        match p with
        | POpening => Hook.make (Some h) None None None
        | POpened => Hook.make None (Some h) None None
        | PClosing => Hook.make None None (Some h) None
        | PClosed => Hook.make None None None (Some h)
        end ]};
     inheritsObjectPrototype := true |}.


(** The environment's part of an undisturbed [open]: the opening hook
    settles, the frame is painted, the entry animations end. *)
Definition opening_pass (i : string) : list Action :=
  [CallOpen i None; Settle 0; Tick; Settle 0; Tick; Settle 0; Tick].

(** ... and then the opened hook settles and [open] returns. *)
Definition open_pass (i : string) : list Action :=
  opening_pass i ++ [Settle 0; Tick].

(** The environment's part of an undisturbed close, from the [close] event
    to the end of the exit animations, where the closed phase commits. *)
Definition closing_pass : list Action :=
  [FireClose; Settle 0; Tick; Settle 0; Tick].

(** What can be observed of element [n]. *)
Definition node (n : nat) (w : World) : option DialogNode := nodes w !! n.

Definition attached (w : World) : list nat :=
  filter (λ n, isConnected <$> node n w = Some true) (seq 0 (length (nodes w))).

Definition lifecycle_markers (d : DialogNode) : list string :=
  filter (λ a, a ∈ ["opening"; "opened"; "closing"; "closed"]) (attributes d).

Definition markers (d : DialogNode) : list string :=
  filter (λ a, a ∈ ["opening"; "opened"; "closing"; "closed"; "open"]) (attributes d).

(** The resolver stored next to a signal is the resolver of that signal:
    both fields are written together, by the constructor and by the two
    assignments that replace a signal. *)
Definition resolvers_bound (w : World) : Prop :=
  resolveOpened (this w) = opened (this w)
  ∧ resolveClosed (this w) = closed (this w).

(** ** What a handler does: the statements proved below *)

(** The surface as [open] leaves it when the opening phase is interrupted. *)
Definition interrupted_surface : DialogNode :=
  {| attributes := ["app-tools"; "opening"]; isConnected := true; returnValue := "" |}.

(** What [open] for kind [i] does in world [w] when the opening hook fails
    with [e]: the call [c] ends rejected with [e], at once when the hook
    throws, and in whatever world the rejection of the hook's promise is
    delivered otherwise; the only event dispatched is [opening]; no signal
    is resolved and nobody awaiting one is woken; [isOpen] is not written;
    the new surface stays attached with its [opening] marker. *)
Definition open_interrupted_by (b : HookBehaviour) (e : JsError)
    (i : string) (parameters : Params) (w : World) : Prop :=
  let c := nextCall w in
  let n := length (nodes w) in
  let k := OpenAwaitOpeningHook i parameters in
  ∃ w1,
    step w (CallOpen i parameters) = Some w1
    ∧ isOpen (this w1) = false
    ∧ promises w1 = promises w
    ∧ microtasks w1 = microtasks w
    ∧ nodes w1 = nodes w ++ [interrupted_surface]
    ∧ dialog (this w1) = Some n
    ∧ match b with
      | HThrows _ =>
          settled w1 = settled w ++ [(c, Some e)]
          ∧ pending w1 = pending w
          ∧ trace w1 = trace w ++ [ELog LogOpening i; EDispatch POpening i n;
                                   EHook POpening i n; ELog (LogHookError POpening) i]
      | _ =>
          settled w1 = settled w
          ∧ pending w1 = pending w ++ [Continue c k (Some e)]
          ∧ trace w1 = trace w ++ [ELog LogOpening i; EDispatch POpening i n;
                                   EHook POpening i n]
      end
    ∧ ∀ w2 rest,
        microtasks w2 = Continue c k (Some e) :: rest →
        step w2 Tick
        = Some (set_settled (settled w2 ++ [(c, Some e)])
                  (log (LogHookError POpening) (id (this w2)) (set_microtasks rest w2))).

(** What the [close] event handler does in world [w], where the controller
    is bound to kind [id (this w)] and owns surface [d], when the closing
    hook fails with [e]: the handler (call [c]) ends rejected with [e]; it
    dispatches [closing] and nothing after it; it never waits for the exit
    animations; no signal is resolved and nobody is woken; the surface keeps
    its place in the document, now with the [closing] marker instead of
    [opened]; the controller keeps its reference and [isOpen] stays true. *)
Definition close_interrupted_by (b : HookBehaviour) (e : JsError)
    (d : nat) (before : DialogNode) (w : World) : Prop :=
  let c := nextCall w in
  let i := id (this w) in
  let k := CloseAwaitClosingHook i d in
  ∃ w1,
    step w FireClose = Some w1
    ∧ isOpen (this w1) = true
    ∧ dialog (this w1) = Some d
    ∧ node d w1 = Some (setAttribute "closing" (removeAttribute "opened" before))
    ∧ isConnected <$> node d w1 = Some true
    ∧ promises w1 = promises w
    ∧ microtasks w1 = []
    ∧ match b with
      | HThrows _ =>
          settled w1 = settled w ++ [(c, Some e)]
          ∧ pending w1 = pending w
          ∧ trace w1 = trace w ++ [ELog LogClosing i; EDispatch PClosing i d;
                                   EHook PClosing i d; ELog (LogHookError PClosing) i]
      | _ =>
          settled w1 = settled w
          ∧ pending w1 = pending w ++ [Continue c k (Some e)]
          ∧ trace w1 = trace w ++ [ELog LogClosing i; EDispatch PClosing i d;
                                   EHook PClosing i d]
      end
    ∧ ∀ w2 rest,
        microtasks w2 = Continue c k (Some e) :: rest →
        step w2 Tick
        = Some (set_settled (settled w2 ++ [(c, Some e)])
                  (log (LogHookError PClosing) i (set_microtasks rest w2))).

(** The world after [l], from a fresh controller; the fresh controller
    itself if [l] cannot be run. *)
Definition world_after (c : Config) (l : list Action) : World :=
  default (init c) (run l (init c)).


(** What a pointer-down on the subtree of the open surface [d] does,
    depending on the node name of its target. *)
Definition light_dismiss (target : Target) (n d : nat) (before : DialogNode)
    (w : World) : Prop :=
  if bool_decide (nodeName target = "DIALOG") then
    ∃ w1,
      step w (Mousedown n target) = Some w1
      ∧ node d w1 = Some (setReturnValue (Some "dismiss") (removeAttribute "open" before))
      ∧ returnValue <$> node d w1 = Some "dismiss"
      ∧ closeEvents w1 = [d]
      ∧ this w1 = this w
      ∧ ∃ w2 after tl,
          step w1 FireClose = Some w2
          ∧ node d w2 = Some after
          ∧ hasAttribute "closing" after = true
          ∧ returnValue after = "dismiss"
          ∧ trace w2 = trace w ++ [ELog LogClosing (id (this w));
                                   EDispatch PClosing (id (this w)) d] ++ tl
  else step w (Mousedown n target) = Some w.


(** ** Runs in which the lifecycle is not interleaved with itself *)

(** Some element is shown. *)
Definition shown (w : World) : bool := existsb (hasAttribute "open") (nodes w).

(** [open] is called only while the controller owns no surface or is open,
    and no close is requested while a surface is shown that has not yet
    reached its opened phase. *)
Definition disciplined (w : World) (a : Action) : bool :=
  match a with
  | CallOpen _ _ => bool_decide (dialog (this w) = None) || isOpen (this w)
  | CallClose _ | Dismiss _ => isOpen (this w) || negb (shown w)
  | Mousedown _ target =>
      negb (bool_decide (nodeName target = "DIALOG"))
      || isOpen (this w) || negb (shown w)
  | _ => true
  end.

Fixpoint disciplined_run (l : list Action) (w : World) : option World :=
  match l with
  | [] => Some w
  | a :: l => if disciplined w a then step w a ≫= disciplined_run l else None
  end.

(** The last lifecycle event dispatched. *)
Definition event_of (e : Effect) : option (Phase * string * nat) :=
  match e with
  | EDispatch kind i d => Some (kind, i, d)
  | _ => None
  end.

Definition last_event (t : list Effect) : option (Phase * string * nat) :=
  last (omap event_of t).

(** The suspended segments that still act on the surface.  The tail of
    [open] after the opened hook only replaces the closed signal. *)
Definition is_live (j : Job) : bool :=
  match j with
  | Continue _ (OpenAwaitOpenedHook _ _) _ => false
  | Continue _ _ _ => true
  | Resume _ _ _ => false
  end.

(** Where a lifecycle pass stands: which segment is suspended, or that the
    pass is stuck after a hook failed. *)
Inductive Stage :=
| Idle
| AtOpeningHook (c : nat) (i : string) (parameters : Params) (r : option JsError)
| AtPaint (c : nat) (i : string) (parameters : Params)
| OpeningStuck
| AtEntryAnimations (c : nat) (i : string) (parameters : Params)
| Visible
| CloseRequested
| AtClosingHook (c : nat) (i : string) (r : option JsError)
| AtExitAnimations (c : nat) (i : string)
| ClosingStuck
| AtClosedHook (c : nat) (i : string) (r : option JsError)
| ClosedStuck.

Definition stage_phase (s : Stage) : option Phase :=
  match s with
  | Idle => None
  | AtOpeningHook _ _ _ _ | AtPaint _ _ _ | OpeningStuck | AtEntryAnimations _ _ _ =>
      Some POpening
  | Visible | CloseRequested => Some POpened
  | AtClosingHook _ _ _ | AtExitAnimations _ _ | ClosingStuck => Some PClosing
  | AtClosedHook _ _ _ | ClosedStuck => Some PClosed
  end.

(** The attributes of the owned surface at each stage. *)
Definition stage_attributes (s : Stage) : list string :=
  match s with
  | Idle => []
  | AtOpeningHook _ _ _ _ | AtPaint _ _ _ | OpeningStuck => ["app-tools"; "opening"]
  | AtEntryAnimations _ _ _ => ["app-tools"; "opening"; "open"]
  | Visible => ["app-tools"; "open"; "opened"]
  | CloseRequested => ["app-tools"; "opened"]
  | AtClosingHook _ _ _ | AtExitAnimations _ _ | ClosingStuck => ["app-tools"; "closing"]
  | AtClosedHook _ _ _ | ClosedStuck => ["app-tools"; "closed"]
  end.

Definition stage_isOpen (s : Stage) : bool :=
  match s with
  | Visible | CloseRequested
  | AtClosingHook _ _ _ | AtExitAnimations _ _ | ClosingStuck => true
  | _ => false
  end.

Definition stage_events (s : Stage) (d : nat) : list nat :=
  match s with
  | CloseRequested => [d]
  | _ => []
  end.

Definition stage_live (s : Stage) (d : nat) : list Job :=
  match s with
  | AtOpeningHook c i p r => [Continue c (OpenAwaitOpeningHook i p) r]
  | AtPaint c i p => [Continue c (OpenAwaitPaint i p) None]
  | AtEntryAnimations c i p => [Continue c (OpenAwaitAnimations i p) None]
  | AtClosingHook c i r => [Continue c (CloseAwaitClosingHook i d) r]
  | AtExitAnimations c i => [Continue c (CloseAwaitAnimations i d) None]
  | AtClosedHook c i r => [Continue c (CloseAwaitClosedHook i d) r]
  | _ => []
  end.

(** A surface of an earlier pass. *)
Definition stale (d : DialogNode) : Prop :=
  attributes d = ["app-tools"; "closed"] ∧ isConnected d = false.

(** The world at stage [s], with the elements [olds] left by earlier
    passes. *)
Definition at_stage (s : Stage) (olds : list DialogNode) (w : World) : Prop :=
  let d := length olds in
  Forall stale olds
  ∧ isOpen (this w) = stage_isOpen s
  ∧ closeEvents w = stage_events s d
  ∧ filter is_live (microtasks w ++ pending w) ≡ₚ stage_live s d
  ∧ match stage_phase s with
    | None => nodes w = olds ∧ dialog (this w) = None
    | Some p =>
        dialog (this w) = Some d
        ∧ ∃ rv i,
            nodes w = olds ++ [{| attributes := stage_attributes s;
                                  isConnected := true;
                                  returnValue := rv |}]
            ∧ last_event (trace w) = Some (p, i, d)
    end.

Definition well_staged (w : World) : Prop := ∃ s olds, at_stage s olds w.

(** ** Undisturbed passes, the signals and the late release *)

(** A hook that is absent, or that returns (or fulfils). *)
Definition succeeds (o : option HookBehaviour) : Prop := o = None ∨ o = Some HReturns.

(** Nothing is queued, parked or awaited. *)
Definition quiescent (w : World) : Prop :=
  microtasks w = [] ∧ pending w = [] ∧ reactions w = [] ∧ closeEvents w = [].

(** The lifecycle events dispatched so far, oldest first. *)
Definition events (w : World) : list (Phase * string * nat) := omap event_of (trace w).

(** The environment's part of an undisturbed [open({id, parameters})]: the
    call, then each awaited promise settles and its continuation runs. *)
Definition open_schedule (i : string) (parameters : Params) : list Action :=
  [CallOpen i parameters; Settle 0; Tick; Settle 0; Tick; Settle 0; Tick; Settle 0; Tick].

(** The environment's part of an undisturbed [close(kind)]: the call, the
    [close] event task, then each awaited promise settles and its
    continuation runs. *)
Definition close_schedule (kind : option string) : list Action :=
  [CallClose kind; FireClose; Settle 0; Tick; Settle 0; Tick; Settle 0; Tick].

(** The surface as a completed [open] leaves it. *)
Definition shown_surface (rv : string) : DialogNode :=
  {| attributes := [APP_TOOLS; "open"; "opened"]; isConnected := true; returnValue := rv |}.

(** The surface as a completed close sequence leaves it. *)
Definition closed_surface (rv : string) : DialogNode :=
  {| attributes := [APP_TOOLS; "closed"]; isConnected := false; returnValue := rv |}.

(** What calling a resolver does to the promises: a pending promise takes
    the value, a settled one keeps its own. *)
Definition fulfil (p v : nat) (ps : list (option nat)) : list (option nat) :=
  match ps !! p with
  | Some None => <[p := Some v]> ps
  | _ => ps
  end.

(** The world an undisturbed open of kind [i] ends in, its trace apart:
    the surface is appended to the document, the resolver of the opened
    signal is called with it, and the closed signal is a new pending
    promise. *)
Definition after_open (i : string) (tr : list Effect) (w : World) : World :=
  {| this := {| id := i; config := config (this w); isOpen := true;
                opened := opened (this w); resolveOpened := resolveOpened (this w);
                closed := length (promises w); resolveClosed := length (promises w);
                dialog := Some (length (nodes w)) |};
     nodes := nodes w ++ [shown_surface ""];
     promises := fulfil (opened (this w)) (length (nodes w)) (promises w) ++ [None];
     reactions := []; microtasks := []; pending := []; closeEvents := [];
     trace := tr;
     settled := settled w ++ [(nextCall w, None)];
     nextCall := S (nextCall w) |}.

(** The world an undisturbed [close(kind)] of surface [d] ends in, its trace
    apart: the surface is detached and released, the resolver of the closed
    signal is called with it, and the opened signal is a new pending
    promise. *)
Definition after_close (kind : option string) (d : nat) (tr : list Effect)
    (w : World) : World :=
  {| this := {| id := ""; config := config (this w); isOpen := false;
                opened := length (promises w); resolveOpened := length (promises w);
                closed := closed (this w); resolveClosed := resolveClosed (this w);
                dialog := None |};
     nodes := <[d := closed_surface (default "programmatic" kind)]> (nodes w);
     promises := fulfil (closed (this w)) d (promises w) ++ [None];
     reactions := []; microtasks := []; pending := []; closeEvents := [];
     trace := tr;
     settled := settled w ++ [(nextCall w, None)];
     nextCall := S (nextCall w) |}.

(** World [w'] is what an undisturbed open of kind [i] makes of [w]:
    [open] is fulfilled, the controller is open and bound to [i], it owns a
    new attached surface with the [opened] and the native [open] marker, the
    opened signal is fulfilled, with that surface if it was pending and with
    the value it had otherwise, the closed signal is a fresh pending
    promise, and [opening] then [opened] were dispatched for the surface. *)
Definition opened_by (i : string) (parameters : Params) (w w' : World) : Prop :=
  let d := length (nodes w) in
  run (open_schedule i parameters) w = Some w'
  ∧ settled w' = settled w ++ [(nextCall w, None)]
  ∧ isOpen (this w') = true
  ∧ id (this w') = i
  ∧ dialog (this w') = Some d
  ∧ nodes w' = nodes w ++ [shown_surface ""]
  ∧ events w' = events w ++ [(POpening, i, d); (POpened, i, d)]
  ∧ opened (this w') = opened (this w)
  ∧ promises w' !! opened (this w')
    = match promises w !! opened (this w) with
      | Some None => Some (Some d)
      | earlier => earlier
      end
  ∧ closed (this w') = length (promises w)
  ∧ promises w' !! closed (this w') = Some None
  ∧ length (promises w') = S (length (promises w))
  ∧ config (this w') = config (this w)
  ∧ nextCall w' = S (nextCall w)
  ∧ resolvers_bound w'
  ∧ quiescent w'.

(** World [w'] is what an undisturbed [close(kind)] makes of an open [w]
    that owns surface [d]: the handler is fulfilled, the controller is not
    open, owns nothing and is bound to no kind, the surface is detached
    with the [closed] marker and [kind] (or [programmatic]) as its return
    value, no other element is touched, the closed signal is fulfilled, with
    the surface if it was pending and with the value it had otherwise, the
    opened signal is a fresh pending promise, and [closing] then [closed]
    were dispatched for the kind that was bound. *)
Definition closed_by (kind : option string) (d : nat) (w w' : World) : Prop :=
  let i := id (this w) in
  run (close_schedule kind) w = Some w'
  ∧ settled w' = settled w ++ [(nextCall w, None)]
  ∧ isOpen (this w') = false
  ∧ id (this w') = ""
  ∧ dialog (this w') = None
  ∧ node d w' = Some (closed_surface (default "programmatic" kind))
  ∧ (∀ n, n ≠ d → node n w' = node n w)
  ∧ length (nodes w') = length (nodes w)
  ∧ events w' = events w ++ [(PClosing, i, d); (PClosed, i, d)]
  ∧ closed (this w') = closed (this w)
  ∧ promises w' !! closed (this w')
    = match promises w !! closed (this w) with
      | Some None => Some (Some d)
      | earlier => earlier
      end
  ∧ opened (this w') = length (promises w)
  ∧ promises w' !! opened (this w') = Some None
  ∧ length (promises w') = S (length (promises w))
  ∧ config (this w') = config (this w)
  ∧ nextCall w' = S (nextCall w)
  ∧ resolvers_bound w'
  ∧ quiescent w'.

(** No hook of the set fails. *)
Definition all_succeed (h : Hook.t) : Prop :=
  succeeds (Hook.opening h) ∧ succeeds (Hook.opened h)
  ∧ succeeds (Hook.closing h) ∧ succeeds (Hook.closed h).

(** World [w'] is what open, close, open of kind [i] make of [w]: two new
    elements, the first closed and detached, the second shown and owned. *)
Definition reopened_by (i : string) (parameters : Params) (kind : option string)
    (parameters' : Params) (w w' : World) : Prop :=
  let d := length (nodes w) in
  run (open_schedule i parameters ++ close_schedule kind
       ++ open_schedule i parameters') w = Some w'
  ∧ nodes w' = nodes w ++ [closed_surface (default "programmatic" kind);
                           shown_surface ""]
  ∧ dialog (this w') = Some (S d)
  ∧ isOpen (this w') = true
  ∧ events w' = events w ++ [(POpening, i, d); (POpened, i, d);
                             (PClosing, i, d); (PClosed, i, d);
                             (POpening, i, S d); (POpened, i, S d)]
  ∧ settled w' = settled w ++ [(nextCall w, None); (S (nextCall w), None);
                               (S (S (nextCall w)), None)].

(** What the handler of the [close] event (call [c]) does once the exit
    animations have ended when the closed hook fails with [e]: the closed
    phase is committed, then the handler ends rejected with [e], and that
    ends it: the surface is neither detached nor released, the kind stays
    bound and the opened signal is not replaced. *)
Definition closed_hook_interrupts (b : HookBehaviour) (e : JsError)
    (c : nat) (i : string) (d : nat) (before : DialogNode) (w : World) : Prop :=
  let k := CloseAwaitClosedHook i d in
  ∃ w1 after,
    step w Tick = Some w1
    ∧ isOpen (this w1) = false
    ∧ node d w1 = Some after
    ∧ hasAttribute "closed" after = true
    ∧ isConnected after = isConnected before
    ∧ dialog (this w1) = dialog (this w)
    ∧ id (this w1) = id (this w)
    ∧ opened (this w1) = opened (this w)
    ∧ match b with
      | HThrows _ => settled w1 = settled w ++ [(c, Some e)] ∧ pending w1 = pending w
      | _ => settled w1 = settled w ∧ pending w1 = pending w ++ [Continue c k (Some e)]
      end
    ∧ ∀ w2 rest,
        microtasks w2 = Continue c k (Some e) :: rest →
        step w2 Tick
        = Some (set_settled (settled w2 ++ [(c, Some e)])
                  (log (LogHookError PClosed) i (set_microtasks rest w2))).

(** The two signals are two different existing promises, each bound to its
    own resolver. *)
Definition signals_ok (w : World) : Prop :=
  resolvers_bound w
  ∧ opened (this w) < length (promises w)
  ∧ closed (this w) < length (promises w)
  ∧ opened (this w) ≠ closed (this w).

(** Promise [p] exists and is none of the two signals. *)
Definition abandoned (p : nat) (w : World) : Prop :=
  p < length (promises w) ∧ p ≠ opened (this w) ∧ p ≠ closed (this w).

(** What the last segment of the handler of the [close] event (call [c],
    surface [d]) does when the controller meanwhile owns another surface
    [d']: it releases [d'] without detaching it, and the [open] that created
    [d'] then fails at [showModal] on a controller that owns nothing. *)
Definition late_release (c : nat) (i : string) (d d' : nat) (nd : DialogNode)
    (w : World) : Prop :=
  ∃ w1,
    step w Tick = Some w1
    ∧ dialog (this w1) = None
    ∧ id (this w1) = ""
    ∧ node d' w1 = Some nd
    ∧ settled w1 = settled w ++ [(c, None)]
    ∧ ∀ w2 c2 i2 p2 rest2,
        dialog (this w2) = None →
        microtasks w2 = Continue c2 (OpenAwaitPaint i2 p2) None :: rest2 →
        step w2 Tick
        = Some (set_settled (settled w2 ++ [(c2, Some TypeError)])
                  (set_microtasks rest2 w2)).

(** The usage example of the README up to its [await dialog.closed]: open,
    await the opened signal, and, resumed, call [close()] and take the
    closed signal.  [open] has not returned yet. *)
Definition readme_flow : list Action :=
  [CallOpen "foo" None; AwaitSignal SOpened 7;
   Settle 0; Tick; Settle 0; Tick; Settle 0; Tick;
   Settle 0; Tick; CallClose None; AwaitSignal SClosed 7].

(** A caller awaits the closed signal and, resumed, opens again; then the
    closed hook of the first pass settles. *)
Definition reopen_on_closed : list Action :=
  open_pass "foo" ++ [AwaitSignal SClosed 7; CallClose None] ++ closing_pass
  ++ [Tick; CallOpen "foo" None; Settle 0].

(** ** The stylesheet of the module *)

Module Styles.

(** An element of the document: its local name, its ID (the value of its
    [id] attribute, empty when it has none), the names of its attributes,
    its markup and its child elements. *)
#[warnings="-register-all"]
Inductive Element := El {
  localName : string;
  elementId : string;
  attributeNames : list string;
  innerHTML : string;
  children : list Element
}.

(** [DIALOG_STYLES_ID] *)
Definition DIALOG_STYLES_ID : string := "dialog-styles".

(** The style sheet, as the module writes it. *)
Definition css : string := "
    html:has(dialog[app-tools][open]) {
      overflow: hidden;
    }

    dialog[app-tools] {
      pointer-events: none;
      inset: 0;
      position: fixed;
      display: block;

      padding: 0;
      width: 200px;
      height: 200px;
    }

    dialog[app-tools] > form[app-tools] {
      width: calc(100% - 10px);
      height: calc(100% - 10px);
      margin: 0;
      padding: 5px;
    }

    dialog[app-tools][open] {
      pointer-events: auto;
    }
  ".

(** The document the module is loaded in: whether it is in quirks mode,
    and the child elements of [document.head], if it has a head. *)
Record Document := {
  quirksMode : bool;
  head : option (list Element)
}.

(** ASCII lowercase of a character and of a string. *)
Definition asciiLower (a : Ascii.ascii) : Ascii.ascii :=
  let n := Ascii.nat_of_ascii a in
  if (65 <=? n)%nat && (n <=? 90)%nat then Ascii.ascii_of_nat (n + 32) else a.

Fixpoint asciiLowercase (x : string) : string :=
  match x with
  | EmptyString => EmptyString
  | String a rest => String (asciiLower a) (asciiLowercase rest)
  end.

(** An ID selector (Selectors, section 6.7): the ID of the element is
    compared with the identifier case-sensitively, and ASCII
    case-insensitively in a document in quirks mode. *)
Definition idMatches (quirks : bool) (elemId identifier : string) : bool :=
  if quirks
  then bool_decide (asciiLowercase elemId = asciiLowercase identifier)
  else bool_decide (elemId = identifier).

(** The selector [style[app-tools]#dialog-styles]. *)
Definition matches (quirks : bool) (e : Element) : bool :=
  bool_decide (localName e = "style")
  && bool_decide (APP_TOOLS ∈ attributeNames e)
  && idMatches quirks (elementId e) DIALOG_STYLES_ID.

(** The first match in the subtree of [e], in tree order. *)
Fixpoint findIn (quirks : bool) (e : Element) : option Element :=
  if matches quirks e then Some e
  else (fix among (l : list Element) : option Element :=
          match l with
          | [] => None
          | c :: rest => match findIn quirks c with
                         | Some x => Some x
                         | None => among rest
                         end
          end) (children e).

(** [document.head.querySelector(...)], over the children of the head. *)
Fixpoint querySelector (quirks : bool) (l : list Element) : option Element :=
  match l with
  | [] => None
  | c :: rest =>
      match findIn quirks c with
      | Some x => Some x
      | None => querySelector quirks rest
      end
  end.

(** The element the module creates: [id] is set through the property, which
    writes the attribute. *)
Definition dialogStyles : Element :=
  {| localName := "style"; elementId := DIALOG_STYLES_ID;
     attributeNames := [APP_TOOLS; "id"]; innerHTML := css; children := [] |}.

(** The statements the module runs when it is loaded:
    [let el = document.head.querySelector(...)], which throws when the
    document has no head, then [if (!el) { ...; document.head.prepend(el) }]. *)
Definition loadModule (doc : Document) : JsError + Document :=
  match head doc with
  | None => inl TypeError
  | Some h =>
      match querySelector (quirksMode doc) h with
      | Some _ => inr doc
      | None => inr {| quirksMode := quirksMode doc; head := Some (dialogStyles :: h) |}
      end
  end.

End Styles.

(** * Proofs *)

(** ** Basic facts *)

Lemma alter_last {A} (f : A → A) (l : list A) (x : A) :
  alter f (length l) (l ++ [x]) = l ++ [f x].
Proof.
  induction l as [|y l IH]; simpl; [reflexivity | f_equal; exact IH].
Qed.

Lemma lookup_last {A} (l : list A) (x : A) : (l ++ [x]) !! length l = Some x.
Proof. induction l; simpl; auto. Qed.

Lemma has_property_registered i c : registered i c → has_property i c = true.
Proof.
  intros H. unfold has_property.
  rewrite bool_decide_eq_true_2; auto.
Qed.

Lemma hook_registered p i c h b :
  own c !! i = Some h → Hook.get p h = b → hook p i c = b.
Proof. intros H1 H2. unfold hook. rewrite H1. exact H2. Qed.

Lemma open_unregistered i parameters w :
  has_property i (config (this w)) = false →
  open i parameters w = (Threw (Error ("No dialog configured for id: " +:+ i)), w).
Proof. intros H. unfold open. rewrite H. reflexivity. Qed.

Lemma open_while_open i parameters w :
  has_property i (config (this w)) = true →
  isOpen (this w) = true →
  open i parameters w = (Returned, log LogAlreadyOpen i (set_id i w)).
Proof.
  intros H1 H2. unfold open. rewrite H1. simpl. rewrite H2. reflexivity.
Qed.

(** Closes goals about concrete runs by evaluation, conjunct by conjunct. *)
Ltac evaluate :=
  repeat match goal with
         | |- ∃ _, _ => eexists
         | |- _ ∧ _ => split
         end;
  vm_compute; reflexivity.

(** Re-opening the kind that is open changes nothing but the log. *)
Lemma open_same_kind_while_open i parameters w :
  has_property i (config (this w)) = true →
  isOpen (this w) = true →
  id (this w) = i →
  open i parameters w = (Returned, log LogAlreadyOpen i w).
Proof.
  intros H1 H2 H3. rewrite open_while_open by assumption.
  destruct w as [[] ]. simpl in *. subst. reflexivity.
Qed.

(** ** Re-entrant and refused opens *)

(** Claim C1, evaluated on the code: two [open] calls in a row, the second
    made while the first is still in its opening phase, both pass the
    [isOpen] guard.  Two surfaces are attached at once and the controller
    refers to the second only.  When both calls have run to their end and
    the surface has been closed and detached, the first surface is still
    attached, with its [opening] marker, and the controller owns nothing. *)
Theorem two_opens_attach_two_surfaces :
  (∃ w, run [CallOpen "foo" None; CallOpen "foo" None] (init foo_config) = Some w
        ∧ attached w = [0; 1]
        ∧ dialog (this w) = Some 1
        ∧ isOpen (this w) = false)
  ∧ (∃ w, run ([CallOpen "foo" None; CallOpen "foo" None;
                Settle 0; Settle 0; Tick; Tick; Settle 0; Settle 0; Tick; Tick;
                Settle 0; Settle 0; Tick; Tick; Settle 0; Settle 0; Tick; Tick;
                CallClose None; FireClose; Settle 0; Tick; Settle 0; Tick;
                Settle 0; Tick]) (init foo_config) = Some w
          ∧ dialog (this w) = None
          ∧ attached w = [0]
          ∧ (attributes <$> node 0 w) = Some ["app-tools"; "opening"]).
Proof.
  split; evaluate.
Qed.

(** Claim C2, evaluated on the code: with the surface of kind [foo] open,
    [open({id: 'bar'})] returns without raising and leaves the surface and
    its markers as they are, but it has already rebound the current kind:
    the close that follows dispatches its events for [bar]. *)
Theorem open_while_open_rebinds_kind :
  ∃ w0 w1 w2,
    run (open_pass "foo") (init foo_bar_config) = Some w0
    ∧ isOpen (this w0) = true ∧ id (this w0) = "foo"
    ∧ step w0 (CallOpen "bar" None) = Some w1
    ∧ settled w1 = settled w0 ++ [(nextCall w0, None)]
    ∧ nodes w1 = nodes w0 ∧ dialog (this w1) = dialog (this w0)
    ∧ id (this w1) = "bar"
    ∧ run (CallClose None :: closing_pass) w1 = Some w2
    ∧ trace w2 = trace w1 ++ [ELog LogClosing "bar"; EDispatch PClosing "bar" 0;
                              EAnimations 0; EDispatch PClosed "bar" 0].
Proof.
  evaluate.
Qed.

(** Claim C3, evaluated on the code: the guard of [open] is [id in config],
    and a config written as an object literal inherits [toString].  The
    kind [toString] is not registered, yet [open] does not reject: it binds
    the kind and attaches a surface. *)
Theorem open_inherited_key_is_not_refused :
  ¬ registered "toString" foo_config
  ∧ ∃ w, run [CallOpen "toString" None] (init foo_config) = Some w
         ∧ settled w = []
         ∧ id (this w) = "toString"
         ∧ dialog (this w) = Some 0
         ∧ attached w = [0].
Proof.
  split.
  - intros [h H]. vm_compute in H. discriminate.
  - evaluate.
Qed.

(** An identifier that the config neither has nor inherits is refused
    before anything is written. *)
Lemma open_unknown_rejects (c : Config) (i : string) (parameters : Params) (w : World) :
  config (this w) = c →
  has_property i c = false →
  step w (CallOpen i parameters)
  = Some (set_settled
            (settled w ++ [(nextCall w, Some (Error ("No dialog configured for id: " +:+ i)))])
            (set_nextCall (S (nextCall w)) w)).
Proof.
  intros Hc H. unfold step.
  rewrite open_unregistered; [reflexivity|].
  simpl. rewrite Hc. exact H.
Qed.

(** ** [close] without a surface *)

(** Claim C10: for every reason, [close(reason)] on a controller that
    holds no surface returns normally and leaves the whole world, the
    controller's fields included, as it was. *)
Theorem close_without_surface (kind : option string) (w : World) :
  dialog (this w) = None →
  close kind w = (Returned, w) ∧ step w (CallClose kind) = Some w.
Proof.
  intros H. unfold step, close. rewrite H. split; reflexivity.
Qed.

Lemma close_without_surface_witness :
  close (Some "custom") (init foo_config) = (Returned, init foo_config)
  ∧ step (init foo_config) (CallClose (Some "custom")) = Some (init foo_config).
Proof.
  apply (close_without_surface (Some "custom") (init foo_config)).
  reflexivity.
Defined.

(** ** A hook of the opening sequence fails *)

(** Claim C4: for every registered kind whose opening hook throws or
    rejects with [e], [open] for that kind, called on a controller that is
    not open, rejects with [e]; the opened event is not emitted, the opened
    signal is not resolved, [isOpen] stays false, and the surface remains
    attached. *)
Theorem opening_hook_failure_rejects_open
    (w : World) (i : string) (parameters : Params)
    (h : Hook.t) (b : HookBehaviour) (e : JsError) :
  own (config (this w)) !! i = Some h →
  Hook.opening h = Some b →
  b = HThrows e ∨ b = HRejects e →
  isOpen (this w) = false →
  open_interrupted_by b e i parameters w.
Proof.
  intros Hown Hhook Hb Hclosed.
  assert (Hp : has_property i (config (this w)) = true)
    by (apply has_property_registered; eexists; exact Hown).
  assert (Hh : hook POpening i (config (this w)) = Some b)
    by (eapply hook_registered; eauto).
  unfold open_interrupted_by, step, open. simpl.
  rewrite Hp, Hclosed. simpl.
  unfold awaitHook. simpl. rewrite Hh.
  destruct Hb as [-> | ->]; simpl;
    (eexists; split; [reflexivity|]); simpl;
    rewrite !alter_last; simpl; rewrite <- !app_assoc; simpl;
    repeat match goal with |- _ ∧ _ => split end;
    try reflexivity; try assumption;
    intros w2 rest Hq; rewrite Hq; reflexivity.
Qed.

Lemma opening_hook_failure_rejects_open_witness :
  open_interrupted_by (HRejects (Thrown "boom")) (Thrown "boom") "bar" None
    (init (failing_config POpening (HRejects (Thrown "boom")))).
Proof.
  apply (opening_hook_failure_rejects_open _ "bar" None
           (Hook.make (Some (HRejects (Thrown "boom"))) None None None)
           (HRejects (Thrown "boom")) (Thrown "boom")).
  - vm_compute. reflexivity.
  - reflexivity.
  - right. reflexivity.
  - reflexivity.
Defined.

(** ** Attributes *)

Lemma hasAttribute_setAttribute a d : hasAttribute a (setAttribute a d) = true.
Proof.
  unfold setAttribute, hasAttribute at 1. simpl.
  destruct (hasAttribute a d) eqn:E.
  - exact E.
  - apply bool_decide_eq_true_2, elem_of_app. right. by apply list_elem_of_singleton.
Qed.


Lemma hasAttribute_removeAttribute a d : hasAttribute a (removeAttribute a d) = false.
Proof.
  apply bool_decide_eq_false_2. simpl.
  rewrite list_elem_of_filter. tauto.
Qed.

Lemma hasAttribute_removeAttribute_ne a b d :
  a ≠ b → hasAttribute a (removeAttribute b d) = hasAttribute a d.
Proof.
  intros Hne. apply bool_decide_ext. simpl.
  rewrite list_elem_of_filter. tauto.
Qed.

Lemma node_on_node f n w d :
  node n w = Some d → node n (on_node f n w) = Some (f d).
Proof.
  unfold node, on_node. simpl. intros H.
  rewrite list_lookup_alter_eq, H. reflexivity.
Qed.

(** ** The closing hook fails *)

(** Claim C5: for every kind whose closing hook throws or rejects, the
    close-notification handler re-raises the error and skips the rest: no
    wait for the exit animations, no resolution of the closed signal, no
    closed event, no detachment; the controller keeps its surface and
    [isOpen] remains true. *)
Theorem closing_hook_failure_skips_cleanup
    (w : World) (d : nat) (before : DialogNode) (events : list nat)
    (h : Hook.t) (b : HookBehaviour) (e : JsError) :
  own (config (this w)) !! id (this w) = Some h →
  Hook.closing h = Some b →
  b = HThrows e ∨ b = HRejects e →
  isOpen (this w) = true →
  dialog (this w) = Some d →
  node d w = Some before →
  isConnected before = true →
  microtasks w = [] →
  closeEvents w = d :: events →
  close_interrupted_by b e d before w.
Proof.
  intros Hown Hhook Hb Hopen Hd Hnode Hconn Hmicro Hev.
  assert (Hh : hook PClosing (id (this w)) (config (this w)) = Some b)
    by (eapply hook_registered; eauto).
  assert (Hn : node d (on_node (setAttribute "closing") d
                         (on_node (removeAttribute "opened") d w))
               = Some (setAttribute "closing" (removeAttribute "opened" before)))
    by (do 2 (apply node_on_node); exact Hnode).
  unfold close_interrupted_by, step, onDialogClose.
  rewrite Hmicro, Hev. simpl. rewrite Hd.
  unfold awaitHook. simpl. rewrite Hh.
  destruct Hb as [-> | ->]; simpl;
    (eexists; split; [reflexivity|]); simpl;
    unfold node in *; simpl in *; rewrite Hn; simpl;
    rewrite <- !app_assoc; simpl;
    repeat match goal with |- _ ∧ _ => split end;
    try reflexivity; try assumption; try (f_equal; assumption);
    intros w2 rest Hq; rewrite Hq; reflexivity.
Qed.

Lemma closing_hook_failure_skips_cleanup_witness :
  close_interrupted_by (HRejects (Thrown "boom")) (Thrown "boom") 0
    {| attributes := ["app-tools"; "opened"]; isConnected := true;
       returnValue := "programmatic" |}
    (world_after (failing_config PClosing (HRejects (Thrown "boom")))
       (open_pass "bar" ++ [CallClose None])).
Proof.
  apply (closing_hook_failure_skips_cleanup _ 0 _ []
           (Hook.make None None (Some (HRejects (Thrown "boom"))) None)
           (HRejects (Thrown "boom")) (Thrown "boom"));
    try (vm_compute; reflexivity).
  right. reflexivity.
Defined.

(** ** The opened hook fails *)






(** ** Light dismiss *)

(** Claim C8, evaluated on the code: the handler compares the node name of
    the target, not the target with the surface.  With the surface of kind
    [foo] open, a pointer-down whose target is a content element that is
    itself a [<dialog>] calls [close("dismiss")]: the surface loses its
    native [open] marker, its result value is [dismiss] and its [close]
    event is queued, which starts the closing sequence. *)
Theorem nested_dialog_target_dismisses :
  ∃ w w',
    run (open_pass "foo") (init foo_config) = Some w
    ∧ step w (Mousedown 0 (TDescendant "DIALOG")) = Some w'
    ∧ closeEvents w = [] ∧ closeEvents w' = [0]
    ∧ returnValue <$> node 0 w' = Some "dismiss"
    ∧ hasAttribute "open" <$> node 0 w' = Some false
    ∧ ∃ w2,
        step w' FireClose = Some w2
        ∧ last_event (trace w2) = Some (PClosing, "foo", 0)
        ∧ lifecycle_markers <$> node 0 w2 = Some ["closing"].
Proof. evaluate. Qed.

Lemma trace_awaitHook p i d k logged w :
  ∃ tl, trace (snd (awaitHook p i d k logged w)) = trace w ++ tl.
Proof.
  unfold awaitHook. destruct (hook p i (config (this w))) as [[| e | e]|]; simpl.
  - by eexists.
  - rewrite <- app_assoc. by eexists.
  - by eexists.
  - exists []. by rewrite app_nil_r.
Qed.

Lemma nodes_awaitHook p i d k logged w :
  nodes (snd (awaitHook p i d k logged w)) = nodes w.
Proof.
  unfold awaitHook. by destruct (hook p i (config (this w))) as [[| e | e]|].
Qed.

Lemma trace_finish c r : trace (finish c r) = trace (snd r).
Proof. by destruct r as [[| e | f r] w]. Qed.

Lemma nodes_finish c r : nodes (finish c r) = nodes (snd r).
Proof. by destruct r as [[| e | f r] w]. Qed.

(** What the handler does for every target: while the owned surface is
    shown, a pointer-down whose target is named [DIALOG] triggers
    [close("dismiss")]: the result value becomes [dismiss] and the close
    event that is queued starts the closing sequence; a pointer-down on a
    content element with any other node name triggers nothing. *)
Lemma light_dismiss_by_node_name
    (w : World) (target : Target) (n d : nat) (before : DialogNode) :
  n < length (nodes w) →
  dialog (this w) = Some d →
  node d w = Some before →
  hasAttribute "open" before = true →
  microtasks w = [] →
  closeEvents w = [] →
  light_dismiss target n d before w.
Proof.
  intros Hn Hd Hnode Hopen Hq Hev.
  unfold light_dismiss, step, onLightDismiss.
  rewrite (bool_decide_eq_true_2 _ Hn).
  destruct (bool_decide (nodeName target = "DIALOG")); [|reflexivity].
  unfold close, nativeClose. rewrite Hd. unfold node in Hnode. rewrite Hnode, Hopen.
  eexists. split; [reflexivity|]. simpl.
  assert (Hnode1 : node d (on_node (λ x, setReturnValue (Some "dismiss")
                                          (removeAttribute "open" x)) d w)
                   = Some (setReturnValue (Some "dismiss") (removeAttribute "open" before)))
    by exact (node_on_node (λ x, setReturnValue (Some "dismiss")
                                    (removeAttribute "open" x)) _ _ _ Hnode).
  unfold node in *. simpl in *. rewrite Hnode1, Hev, Hq. simpl.
  repeat match goal with |- _ ∧ _ => split end; try reflexivity.
  unfold onDialogClose. simpl. rewrite Hd.
  match goal with
  | |- context [awaitHook ?p ?i ?d ?k ?l ?w] =>
      destruct (trace_awaitHook p i d k l w) as [tl Htl];
      pose proof (nodes_awaitHook p i d k l w) as Hns
  end.
  do 3 eexists. split; [reflexivity|].
  rewrite nodes_finish, trace_finish, Hns, Htl. simpl.
  rewrite !list_lookup_alter_eq, Hnode. simpl.
  repeat match goal with |- _ ∧ _ => split end; try reflexivity.
  - apply hasAttribute_setAttribute.
  - rewrite <- !app_assoc. reflexivity.
Qed.

Lemma light_dismiss_by_node_name_witness :
  light_dismiss TSurface 0 0
    {| attributes := ["app-tools"; "open"; "opened"]; isConnected := true;
       returnValue := "" |}
    (world_after foo_config (open_pass "foo"))
  ∧ light_dismiss (TDescendant "FORM") 0 0
      {| attributes := ["app-tools"; "open"; "opened"]; isConnected := true;
         returnValue := "" |}
      (world_after foo_config (open_pass "foo")).
Proof.
  split; apply light_dismiss_by_node_name; vm_compute; try reflexivity;
    repeat constructor.
Defined.

(** ** The closed signal *)




(** After a pass whose opened hook threw, [open] has not replaced the
    closed signal, which the close of the pass before fulfilled: a caller
    that awaits it while the new surface is open is queued at once, with
    the surface of the pass before. *)
Example fulfilled_closed_signal_resumes_at_once :
  ∃ w w',
    run (opening_pass "bar" ++ close_schedule None ++ opening_pass "bar")
        (init (failing_config POpened (HThrows (Thrown "boom")))) = Some w
    ∧ isOpen (this w) = true
    ∧ dialog (this w) = Some 1
    ∧ promises w !! closed (this w) = Some (Some 0)
    ∧ step w (AwaitSignal SClosed 7) = Some w'
    ∧ microtasks w' = [Resume SClosed 7 0].
Proof. evaluate. Qed.

(** ** The markers on the surface *)

(** Claim C7, evaluated on the code: a close requested while the entry
    animations run, after the native show and before the opened phase
    commits, by [close()] or by the Escape key.  The handler of the [close]
    event removes [opened], which is not there, and sets [closing] beside
    [opening].  When the entry animations end, [open] goes on: it swaps
    [opening] for [opened] beside [closing] and sets [isOpen] on a surface
    that is no longer shown.  When all has settled the detached surface
    carries [opened] and [closed]. *)
Theorem close_during_entry_animations_mixes_markers :
  ∃ w0 w1 w1' w2 w3,
    run [CallOpen "foo" None; Settle 0; Tick; Settle 0; Tick] (init foo_config) = Some w0
    ∧ markers <$> node 0 w0 = Some ["opening"; "open"]
    ∧ pending w0 = [Continue 0 (OpenAwaitAnimations "foo" None) None]
    ∧ run [CallClose None; FireClose] w0 = Some w1
    ∧ markers <$> node 0 w1 = Some ["opening"; "closing"]
    ∧ run [Dismiss 0; FireClose] w0 = Some w1'
    ∧ markers <$> node 0 w1' = Some ["opening"; "closing"]
    ∧ run [Settle 0; Tick] w1 = Some w2
    ∧ markers <$> node 0 w2 = Some ["closing"; "opened"]
    ∧ isOpen (this w2) = true
    ∧ last_event (trace w2) = Some (POpened, "foo", 0)
    ∧ run [Settle 0; Tick; Settle 0; Tick; Settle 0; Tick; Settle 0; Tick] w2 = Some w3
    ∧ markers <$> node 0 w3 = Some ["opened"; "closed"]
    ∧ settled w3 = [(0, None); (1, None)]
    ∧ microtasks w3 = [] ∧ pending w3 = [] ∧ closeEvents w3 = [].
Proof. evaluate. Qed.

(** In every pass the native [open] marker is present beside a lifecycle
    marker: from the native show to the commit of the opened phase the
    surface carries [opening] and [open] together, and once opened it
    carries [open] and [opened] together. *)
Lemma native_open_marker_coexists :
  ∃ w w',
    run [CallOpen "foo" None; Settle 0; Tick; Settle 0; Tick] (init foo_config) = Some w
    ∧ markers <$> node 0 w = Some ["opening"; "open"]
    ∧ run [Settle 0; Tick] w = Some w'
    ∧ markers <$> node 0 w' = Some ["open"; "opened"].
Proof. evaluate. Qed.

(** ** The stages of an undisturbed lifecycle *)

(** The last event after one more effect. *)
Lemma last_event_snoc t e :
  last_event (t ++ [e]) = match event_of e with Some x => Some x | None => last_event t end.
Proof.
  unfold last_event. rewrite omap_app. simpl.
  destruct (event_of e); simpl.
  - apply last_snoc.
  - by rewrite app_nil_r.
Qed.

Lemma live_snoc l j :
  filter is_live (l ++ [j]) = filter is_live l ++ (if is_live j then [j] else []).
Proof.
  rewrite filter_app. f_equal. by destruct j as [c [] r|].
Qed.

Lemma live_reactions v (l : list (nat * (Signal * nat))) :
  filter is_live (reaction_job v <$> l) = [].
Proof. induction l as [|x l IH]; [done|]. simpl. exact IH. Qed.

(** A stage only looks at the open flag, the owned surface, the queued
    close events, the elements, the last event and the live segments. *)
Lemma at_stage_ext s olds w w' :
  isOpen (this w') = isOpen (this w) →
  dialog (this w') = dialog (this w) →
  closeEvents w' = closeEvents w →
  nodes w' = nodes w →
  last_event (trace w') = last_event (trace w) →
  filter is_live (microtasks w' ++ pending w') ≡ₚ filter is_live (microtasks w ++ pending w) →
  at_stage s olds w → at_stage s olds w'.
Proof.
  intros H1 H2 H3 H4 H5 H6 (Ho & Hi & He & Hl & Hn).
  unfold at_stage. rewrite H1, H2, H3, H4, H5, H6. done.
Qed.

(** Calling a hook and awaiting it writes the trace and parks at most the
    calling function. *)
Lemma awaitHook_finish c p i d k lg w :
  let w' := finish c (awaitHook p i d k lg w) in
  this w' = this w ∧ nodes w' = nodes w ∧ closeEvents w' = closeEvents w
  ∧ last_event (trace w') = last_event (trace w)
  ∧ microtasks w' = microtasks w
  ∧ (pending w' = pending w ∨ ∃ r, pending w' = pending w ++ [Continue c k r]).
Proof.
  unfold awaitHook.
  destruct (hook p i (config (this w))) as [[| e | e]|]; simpl;
    rewrite ?last_event_snoc; simpl; repeat split; eauto.
Qed.

(** Resolving a promise only wakes application code. *)
Lemma resolve_view p v w :
  this (resolve p v w) = this w ∧ nodes (resolve p v w) = nodes w
  ∧ closeEvents (resolve p v w) = closeEvents w
  ∧ trace (resolve p v w) = trace w
  ∧ pending (resolve p v w) = pending w
  ∧ filter is_live (microtasks (resolve p v w)) = filter is_live (microtasks w).
Proof.
  unfold resolve. destruct (promises w !! p) as [[|]|]; simpl; repeat split.
  by rewrite filter_app, live_reactions, app_nil_r.
Qed.

Lemma stale_no_open d : stale d → hasAttribute "open" d = false.
Proof. intros [H _]. unfold hasAttribute. rewrite H. reflexivity. Qed.

Lemma nativeClose_stale olds rest n r w :
  Forall stale olds → nodes w = olds ++ rest → n < length olds →
  nativeClose n r w = w.
Proof.
  intros Ho Hn Hlt. unfold nativeClose. rewrite Hn, lookup_app_l by done.
  destruct (olds !! n) as [d|] eqn:E; [|done].
  rewrite stale_no_open; [done|].
  eapply Forall_lookup_1; eauto.
Qed.

Lemma nativeClose_beyond n r w :
  (length (nodes w) ≤ n)%nat → nativeClose n r w = w.
Proof.
  intros H. unfold nativeClose. by rewrite lookup_ge_None_2.
Qed.

Lemma shown_last olds d w :
  nodes w = olds ++ [d] → hasAttribute "open" d = true → shown w = true.
Proof.
  intros Hn Hd. unfold shown. rewrite Hn, existsb_app. simpl.
  rewrite Hd. apply orb_true_iff. right. reflexivity.
Qed.

(** Closing the owned surface natively. *)
Lemma nativeClose_owned s olds r w :
  at_stage s olds w →
  isOpen (this w) || negb (shown w) = true →
  ∃ s', at_stage s' olds (nativeClose (length olds) r w).
Proof.
  intros Hst Hdisc. pose proof Hst as (Ho & Hi & He & Hl & Hn).
  destruct (stage_phase s) as [p|] eqn:Hp.
  2:{ destruct Hn as [Hn Hd]. exists s. by rewrite nativeClose_beyond by (rewrite Hn; lia). }
  destruct Hn as (Hd & rv & i & Hn & Hlast).
  unfold nativeClose. rewrite Hn, lookup_last.
  destruct s; simpl in *; try discriminate; try (eexists; exact Hst).
  - erewrite Hi, shown_last in Hdisc by (exact Hn || reflexivity). discriminate.
  - exists CloseRequested. unfold at_stage. simpl.
    rewrite Hn, alter_last, He. simplify_eq. simpl. repeat split; eauto.
Qed.

Lemma at_stage_dialog_None s olds w :
  at_stage s olds w → dialog (this w) = None → s = Idle.
Proof.
  intros (_ & _ & _ & _ & Hn) Hd.
  destruct s; simpl in Hn; try reflexivity; destruct Hn as [Hn _]; congruence.
Qed.

Lemma at_stage_surface s olds w :
  at_stage s olds w → s ≠ Idle → dialog (this w) = Some (length olds).
Proof.
  intros (_ & _ & _ & _ & Hn) Hs.
  destruct s; simpl in Hn; try congruence; by destruct Hn as [Hn _].
Qed.

(** [close(kind)] keeps the world staged. *)
Lemma close_staged s olds kind w :
  at_stage s olds w →
  isOpen (this w) || negb (shown w) = true →
  ∃ s', at_stage s' olds (snd (close kind w)).
Proof.
  intros Hst Hdisc. unfold close.
  destruct (dialog (this w)) as [n|] eqn:Hd; simpl; [|by eexists].
  assert (s ≠ Idle) as Hs.
  { intros ->. destruct Hst as (_ & _ & _ & _ & _ & Hn). simpl in Hn. congruence. }
  rewrite (at_stage_surface _ _ _ Hst Hs) in Hd. simplify_eq.
  eapply nativeClose_owned; eauto.
Qed.

(** Escape on any element keeps the world staged. *)
Lemma dismiss_staged s olds n w :
  at_stage s olds w →
  isOpen (this w) || negb (shown w) = true →
  ∃ s', at_stage s' olds (nativeClose n None w).
Proof.
  intros Hst Hdisc. pose proof Hst as (Ho & Hi & He & Hl & Hn).
  destruct (decide (n < length olds)) as [Hlt|Hge].
  - exists s. destruct (stage_phase s).
    + destruct Hn as (_ & rv & i & Hn & _). by erewrite nativeClose_stale.
    + destruct Hn as [Hn _]. erewrite nativeClose_stale; eauto. by rewrite app_nil_r.
  - destruct (decide (n = length olds)) as [->|Hne]; [eapply nativeClose_owned; eauto|].
    exists s. rewrite nativeClose_beyond; [done|].
    destruct (stage_phase s).
    + destruct Hn as (_ & rv & i & Hn & _). rewrite Hn, length_app. simpl. lia.
    + destruct Hn as [Hn _]. rewrite Hn. lia.
Qed.

Ltac hook_outcome :=
  match goal with
  | |- context [finish ?c (awaitHook ?p ?i ?d ?k ?lg ?w)] =>
      let H := fresh "H" in
      let w' := fresh "wh" in
      pose proof (awaitHook_finish c p i d k lg w) as H; cbv zeta in H;
      set (w' := finish c (awaitHook p i d k lg w)) in *; clearbody w';
      simpl in H;
      destruct H as (Ht & Hns & Hev & Hla & Hm & Hp)
  end.

(** [open({id, parameters})] on an idle or an open controller keeps the
    world staged. *)
Lemma open_staged s olds i p w :
  at_stage s olds w →
  bool_decide (dialog (this w) = None) || isOpen (this w) = true →
  ∃ s', at_stage s' olds (finish (nextCall w) (open i p (set_nextCall (S (nextCall w)) w))).
Proof.
  intros Hst Hdisc. unfold open. simpl.
  destruct (has_property i (config (this w))); simpl.
  2:{ exists s. eapply at_stage_ext; [..|exact Hst]; reflexivity. }
  destruct (isOpen (this w)) eqn:Hio; simpl.
  { exists s. eapply at_stage_ext; [..|exact Hst]; try reflexivity.
    simpl. by rewrite last_event_snoc. }
  rewrite orb_false_r in Hdisc. apply bool_decide_eq_true_1 in Hdisc.
  pose proof (at_stage_dialog_None _ _ _ Hst Hdisc) as ->.
  destruct Hst as (Ho & Hi & He & Hl & Hn & Hd). simpl in *.
  hook_outcome.
  rewrite Hn, !alter_last, !last_event_snoc in *. simpl in *.
  destruct Hp as [Hp | [r Hp]].
  - exists OpeningStuck. unfold at_stage. rewrite Ht, Hns, Hev, Hla, Hm, Hp. simpl.
    repeat split; eauto.
  - exists (AtOpeningHook (nextCall w) i p r). unfold at_stage.
    rewrite Ht, Hns, Hev, Hla, Hm, Hp. simpl.
    rewrite app_assoc, live_snoc, Hl. simpl.
    repeat split; eauto.
Qed.

(** Awaiting a signal, the settlement of a pending promise and the close
    event task keep the world staged. *)
Lemma await_staged s olds sg waiter p w :
  at_stage s olds w → at_stage s olds (awaitPromise sg waiter p w).
Proof.
  intros Hst. eapply at_stage_ext; [..|exact Hst];
    unfold awaitPromise; destruct (promises w !! p) as [[v|]|]; try reflexivity.
  simpl. rewrite <- app_assoc, !filter_app. simpl. reflexivity.
Qed.

Lemma settle_staged s olds k j w :
  at_stage s olds w → pending w !! k = Some j →
  at_stage s olds (set_microtasks (microtasks w ++ [j])
                     (set_pending (delete k (pending w)) w)).
Proof.
  intros Hst Hk. eapply at_stage_ext; [..|exact Hst]; try reflexivity.
  simpl. apply filter_Permutation.
  rewrite <- app_assoc. apply Permutation_app_head. simpl.
  symmetry. by apply delete_Permutation.
Qed.

Lemma fire_staged s olds n rest w :
  at_stage s olds w →
  microtasks w = [] →
  closeEvents w = n :: rest →
  ∃ s', at_stage s' olds
          (finish (nextCall w)
             (onDialogClose (set_closeEvents rest (set_nextCall (S (nextCall w)) w)))).
Proof.
  intros Hst Hq Hce. pose proof Hst as (Ho & Hi & He & Hl & Hn).
  rewrite Hce in He.
  destruct s; simpl in He; try discriminate. simplify_eq. simpl in *.
  destruct Hn as (Hd & rv & i & Hn & Hlast).
  unfold onDialogClose. simpl. rewrite Hd.
  hook_outcome.
  rewrite Hn, !alter_last, !last_event_snoc in *. simpl in *.
  destruct Hp as [Hp | [r Hp]].
  - exists ClosingStuck. unfold at_stage. rewrite Ht, Hns, Hev, Hla, Hm, Hp. simpl.
    repeat split; eauto.
  - exists (AtClosingHook (nextCall w) (id (this w)) r). unfold at_stage.
    rewrite Ht, Hns, Hev, Hla, Hm, Hp. simpl.
    rewrite app_assoc, live_snoc, Hl. simpl.
    repeat split; eauto.
Qed.

(** A live job at the head of the queue is the one the stage expects, and
    there is no other. *)
Lemma live_head s d j ms pd :
  is_live j = true →
  filter is_live ((j :: ms) ++ pd) ≡ₚ stage_live s d →
  stage_live s d = [j] ∧ filter is_live (ms ++ pd) = [].
Proof.
  intros Hj. simpl. rewrite filter_cons_True by (by rewrite Hj).
  destruct s; simpl; intros H;
    (apply Permutation_nil_r in H; discriminate)
    || (apply Permutation_singleton_r in H; by simplify_eq).
Qed.

Ltac resolve_outcome :=
  match goal with
  | H : context [resolve ?p ?v ?w] |- _ =>
      let R := fresh "R" in
      let w' := fresh "wr" in
      pose proof (resolve_view p v w) as R;
      set (w' := resolve p v w) in *; clearbody w';
      simpl in R;
      destruct R as (Rt & Rn & Re & Rtr & Rp & Rl)
  end.

(** Running the oldest microtask moves the world to the next stage. *)
Lemma tick_staged s olds w w' :
  at_stage s olds w → step w Tick = Some w' → ∃ s' olds', at_stage s' olds' w'.
Proof.
  intros Hst Hstep. unfold step in Hstep.
  destruct (microtasks w) as [|[c f r|sg wt v] rest] eqn:Hq; simplify_eq.
  2:{ exists s, olds. eapply at_stage_ext; [..|exact Hst]; try reflexivity.
      simpl. by rewrite Hq. }
  destruct (is_live (Continue c f r)) eqn:Hlive.
  2:{ exists s, olds. destruct f; try discriminate.
      simpl. destruct r as [e|]; simpl;
        (eapply at_stage_ext; [..|exact Hst]; try reflexivity; simpl;
         rewrite ?last_event_snoc, ?Hq; reflexivity). }
  pose proof Hst as (Ho & Hi & He & Hl & Hn).
  rewrite Hq in Hl. destruct (live_head _ _ _ _ _ Hlive Hl) as [Hs Hrest].
  destruct s; simpl in Hs; simplify_eq; simpl in *;
    destruct Hn as (Hd & rv & i0 & Hn & Hlast).
  - (* after the opening hook *)
    destruct r as [e|]; simpl.
    + exists OpeningStuck, olds. unfold at_stage. simpl.
      rewrite Hrest, Hn, last_event_snoc. simpl. repeat split; eauto.
    + exists (AtPaint c i parameters), olds. unfold at_stage. simpl.
      rewrite app_assoc, live_snoc, Hrest, Hn, last_event_snoc. simpl.
      repeat split; eauto.
  - (* after the paint *)
    rewrite Hd. unfold showModal. simpl. rewrite Hn, lookup_last. simpl.
    exists (AtEntryAnimations c i parameters), olds. unfold at_stage. simpl.
    rewrite app_assoc, live_snoc, Hrest, Hn, alter_last, last_event_snoc. simpl.
    repeat split; eauto.
  - (* after the entry animations *)
    rewrite Hd. hook_outcome. resolve_outcome.
    rewrite ?Rt, ?Rn, ?Re, ?Rtr, ?Rp in *. simpl in *.
    rewrite Hn, !alter_last, !last_event_snoc in *. simpl in *.
    exists Visible, olds. unfold at_stage.
    rewrite Ht, Hns, Hev, Hla, Hm. simpl.
    assert (filter is_live (microtasks wr ++ pending wh) = []) as ->.
    { rewrite filter_app, Rl. rewrite filter_app in Hrest.
      destruct Hp as [-> | [r' ->]]; [exact Hrest|].
      rewrite filter_app, app_assoc, Hrest. reflexivity. }
    repeat split; eauto.
  - (* after the closing hook *)
    destruct r as [e|]; simpl.
    + exists ClosingStuck, olds. unfold at_stage. simpl.
      rewrite Hrest, Hn, last_event_snoc. simpl. repeat split; eauto.
    + exists (AtExitAnimations c i), olds. unfold at_stage. simpl.
      rewrite app_assoc, live_snoc, Hrest, Hn, last_event_snoc. simpl.
      repeat split; eauto.
  - (* after the exit animations *)
    hook_outcome. resolve_outcome.
    rewrite ?Rt, ?Rn, ?Re, ?Rtr, ?Rp in *. simpl in *.
    rewrite Hn, !alter_last, !last_event_snoc in *. simpl in *.
    rewrite filter_app in Hrest.
    destruct Hp as [Hp | [r' Hp]].
    + exists ClosedStuck, olds. unfold at_stage.
      rewrite Ht, Hns, Hev, Hla, Hm, Hp. simpl.
      rewrite filter_app, Rl, Hrest. repeat split; eauto.
    + exists (AtClosedHook c i r'), olds. unfold at_stage.
      rewrite Ht, Hns, Hev, Hla, Hm, Hp. simpl.
      rewrite app_assoc, live_snoc, filter_app, Rl, Hrest. simpl.
      repeat split; eauto.
  - (* after the closed hook *)
    destruct r as [e|]; simpl.
    + exists ClosedStuck, olds. unfold at_stage. simpl.
      rewrite Hrest, Hn, last_event_snoc. simpl. repeat split; eauto.
    + exists Idle, (olds ++ [{| attributes := ["app-tools"; "closed"];
                                isConnected := false; returnValue := rv |}]).
      unfold at_stage. simpl.
      rewrite Hrest, Hn, alter_last. simpl. repeat split; eauto.
      apply Forall_app. split; [done|]. by repeat constructor.
Qed.

Lemma init_staged c : at_stage Idle [] (init c).
Proof. unfold at_stage. simpl. repeat split; eauto. Qed.

(** Every disciplined step keeps the world staged. *)
Lemma step_staged w a w' :
  well_staged w → disciplined w a = true → step w a = Some w' → well_staged w'.
Proof.
  intros (s & olds & Hst) Hdisc Hstep.
  destruct a as [i p | kind | n target | n | sg waiter | | k |]; simpl in Hdisc, Hstep.
  - simplify_eq. destruct (open_staged _ _ i p _ Hst Hdisc) as [s' Hs']. by exists s', olds.
  - simplify_eq. destruct (close_staged _ _ kind _ Hst Hdisc) as [s' Hs']. by exists s', olds.
  - case_bool_decide; simplify_eq. unfold onLightDismiss.
    destruct (bool_decide (nodeName target = "DIALOG")); simpl in *.
    + destruct (close_staged _ _ (Some "dismiss") _ Hst Hdisc) as [s' Hs']. by exists s', olds.
    + by exists s, olds.
  - simplify_eq. destruct (dismiss_staged _ _ n _ Hst Hdisc) as [s' Hs']. by exists s', olds.
  - simplify_eq. exists s, olds. by apply await_staged.
  - eapply tick_staged; eauto.
  - destruct (pending w !! k) as [j|] eqn:Hk; simplify_eq.
    exists s, olds. by apply settle_staged.
  - destruct (microtasks w) eqn:Hq; [|done].
    destruct (closeEvents w) as [|n rest] eqn:He; simplify_eq.
    destruct (fire_staged _ _ n rest _ Hst Hq He) as [s' Hs']. by exists s', olds.
Qed.

Lemma disciplined_run_staged l w w' :
  well_staged w → disciplined_run l w = Some w' → well_staged w'.
Proof.
  revert w. induction l as [|a l IH]; intros w Hw Hrun; simpl in Hrun.
  - by simplify_eq.
  - destruct (disciplined w a) eqn:Hd; [|done].
    destruct (step w a) as [w1|] eqn:Hs; [|done]. simpl in Hrun.
    eapply IH; [|exact Hrun]. eapply step_staged; eauto.
Qed.

(** At every stage the owned surface carries the marker of its phase and no
    other lifecycle marker; the native marker accompanies [opening] and
    [opened] only. *)
Lemma stage_markers s :
  s ≠ Idle →
  ∃ p, stage_phase s = Some p
     ∧ filter (λ a, a ∈ ["opening"; "opened"; "closing"; "closed"]) (stage_attributes s)
       = [phase_name p]
     ∧ (bool_decide ("open" ∈ stage_attributes s) = true → p = POpening ∨ p = POpened).
Proof.
  intros Hs. destruct s; try done; eexists; (split; [reflexivity|]);
    (split; [reflexivity|]); simpl; intros H; try discriminate; eauto.
Qed.

(** In every world reached by a run in which [open] is called only while
    the controller owns no surface or is open, and no close is requested
    between the native show and the commit of the opened phase, every
    element carries exactly one of the four lifecycle markers [opening],
    [opened], [closing], [closed]; on the owned surface it is the kind of
    the last lifecycle event dispatched.  The native [open] marker is
    present on the owned surface only, together with [opening] or with
    [opened]. *)
Lemma lifecycle_markers_reflect_phase (c : Config) (l : list Action) (w : World)
    (n : nat) (d : DialogNode) :
  disciplined_run l (init c) = Some w →
  node n w = Some d →
  ∃ p, lifecycle_markers d = [phase_name p]
     ∧ (hasAttribute "open" d = true →
        dialog (this w) = Some n ∧ (p = POpening ∨ p = POpened))
     ∧ (dialog (this w) = Some n → ∃ i, last_event (trace w) = Some (p, i, n)).
Proof.
  intros Hrun Hnode.
  destruct (disciplined_run_staged l (init c) w) as (s & olds & Hst);
    [by exists Idle, []; apply init_staged | exact Hrun |].
  destruct Hst as (Ho & Hi & He & Hl & Hn). unfold node in Hnode.
  assert (Hold : ∀ x, olds !! n = Some x →
            dialog (this w) ≠ Some n ∧ lifecycle_markers x = ["closed"]
            ∧ hasAttribute "open" x = false).
  { intros x Hx. pose proof (Forall_lookup_1 _ _ _ _ Ho Hx) as [Ha Hc].
    apply lookup_lt_Some in Hx.
    unfold lifecycle_markers, hasAttribute. rewrite Ha. repeat split.
    destruct (stage_phase s); [destruct Hn as [-> _]|destruct Hn as [_ ->]];
      intros ?; simplify_eq; lia. }
  assert (Hstale : ∀ x, olds !! n = Some x → d = x →
            ∃ p, lifecycle_markers d = [phase_name p]
              ∧ (hasAttribute "open" d = true →
                 dialog (this w) = Some n ∧ (p = POpening ∨ p = POpened))
              ∧ (dialog (this w) = Some n → ∃ i, last_event (trace w) = Some (p, i, n))).
  { intros x Hx ->. destruct (Hold x Hx) as (H1 & H2 & H3).
    exists PClosed. rewrite H2, H3. repeat split; done. }
  destruct (stage_phase s) as [p|] eqn:Hp.
  2:{ destruct Hn as [Hn Hd]. rewrite Hn in Hnode. eauto. }
  destruct Hn as (Hd & rv & i & Hn & Hlast). rewrite Hn in Hnode.
  apply lookup_app_Some in Hnode as [Hnode | [Hge Hnode]]; [eauto|].
  destruct (n - length olds) as [|m] eqn:Hm; [|by destruct m].
  assert (n = length olds) as -> by lia. simpl in Hnode. simplify_eq.
  destruct (stage_markers s) as (p' & Hp' & Hmark & Hopen);
    [by intros -> |]. simplify_eq.
  exists p. unfold lifecycle_markers, hasAttribute. simpl. eauto 10.
Qed.

Lemma lifecycle_markers_reflect_phase_witness :
  ∃ p, lifecycle_markers {| attributes := ["app-tools"; "opening"; "open"];
                            isConnected := true; returnValue := "" |}
       = [phase_name p]
     ∧ (hasAttribute "open" {| attributes := ["app-tools"; "opening"; "open"];
                               isConnected := true; returnValue := "" |} = true →
        dialog (this (world_after foo_config
                        [CallOpen "foo" None; Settle 0; Tick; Settle 0; Tick])) = Some 0
        ∧ (p = POpening ∨ p = POpened))
     ∧ (dialog (this (world_after foo_config
                        [CallOpen "foo" None; Settle 0; Tick; Settle 0; Tick])) = Some 0 →
        ∃ i, last_event (trace (world_after foo_config
                                  [CallOpen "foo" None; Settle 0; Tick; Settle 0; Tick]))
             = Some (p, i, 0)).
Proof.
  apply (lifecycle_markers_reflect_phase foo_config
           [CallOpen "foo" None; Settle 0; Tick; Settle 0; Tick]);
    vm_compute; reflexivity.
Defined.

(** A disciplined run is a run. *)
Lemma disciplined_run_run l w w' : disciplined_run l w = Some w' → run l w = Some w'.
Proof.
  revert w. induction l as [|a l IH]; intros w H; simpl in *; [done|].
  destruct (disciplined w a); [|done].
  destruct (step w a) as [w1|]; [|done]. simpl in *. by apply IH.
Qed.

(** In a disciplined run the only attached surface is the owned one. *)
Lemma single_surface_when_disciplined (c : Config) (l : list Action) (w : World)
    (n : nat) (d : DialogNode) :
  disciplined_run l (init c) = Some w →
  node n w = Some d →
  isConnected d = true →
  dialog (this w) = Some n.
Proof.
  intros Hrun Hnode Hconn.
  destruct (disciplined_run_staged l (init c) w) as (s & olds & Hst);
    [by exists Idle, []; apply init_staged | exact Hrun |].
  destruct Hst as (Ho & Hi & He & Hl & Hn). unfold node in Hnode.
  assert (Hold : olds !! n = Some d → False).
  { intros Hx. destruct (Forall_lookup_1 _ _ _ _ Ho Hx) as [_ Hc]. congruence. }
  destruct (stage_phase s) as [p|].
  2:{ destruct Hn as [Hn Hd]. rewrite Hn in Hnode. by destruct Hold. }
  destruct Hn as (Hd & rv & i & Hn & Hlast). rewrite Hn in Hnode.
  apply lookup_app_Some in Hnode as [Hnode | [Hge Hnode]]; [by destruct Hold|].
  destruct (n - length olds) as [|m] eqn:Hm; [|by destruct m].
  by replace n with (length olds) by lia.
Qed.

Lemma this_awaitHook_finish c p i d k lg w :
  this (finish c (awaitHook p i d k lg w)) = this w.
Proof. apply awaitHook_finish. Qed.

Lemma this_resolve p v w : this (resolve p v w) = this w.
Proof. apply resolve_view. Qed.

Lemma this_nativeClose n r w : this (nativeClose n r w) = this w.
Proof.
  unfold nativeClose. destruct (nodes w !! n) as [d|]; [|done].
  by destruct (hasAttribute "open" d).
Qed.

(** The resolvers stay bound to their signals. *)
Lemma step_resolvers_bound w a w' :
  resolvers_bound w → step w a = Some w' → resolvers_bound w'.
Proof.
  unfold resolvers_bound. intros Hb Hstep.
  destruct a as [i p | kind | n target | n | sg waiter | | k |]; simpl in Hstep.
  - simplify_eq. unfold open. simpl.
    destruct (has_property i (config (this w))); simpl; [|done].
    destruct (isOpen (this w)); simpl; [done|].
    by rewrite this_awaitHook_finish.
  - simplify_eq. unfold close. destruct (dialog (this w)); simpl; [|done].
    by rewrite this_nativeClose.
  - case_bool_decide; simplify_eq. unfold onLightDismiss, close.
    destruct (bool_decide (nodeName target = "DIALOG")); [|done].
    destruct (dialog (this w)); simpl; [|done]. by rewrite this_nativeClose.
  - simplify_eq. by rewrite this_nativeClose.
  - simplify_eq. unfold awaitPromise.
    by destruct (promises w !! signal sg w) as [[v|]|].
  - destruct (microtasks w) as [|[c f r|sg wt v] rest]; simplify_eq; [|done].
    destruct Hb as [Hb1 Hb2].
    destruct f; simpl.
    + destruct r; simpl; done.
    + destruct (dialog (this w)); simpl; [|done].
      unfold showModal. simpl. destruct (nodes w !! n) as [d|]; [|done].
      destruct (hasAttribute "open" d); [done|]. by destruct (isConnected d).
    + destruct (dialog (this w)); simpl; [|done].
      rewrite this_awaitHook_finish. simpl. rewrite this_resolve. done.
    + destruct r; simpl; done.
    + destruct r; simpl; done.
    + rewrite this_awaitHook_finish. simpl. rewrite this_resolve. done.
    + destruct r; simpl; done.
  - destruct (pending w !! k); by simplify_eq.
  - destruct (microtasks w); [|done]. destruct (closeEvents w); simplify_eq.
    unfold onDialogClose. simpl. destruct (dialog (this w)); simpl; [|done].
    by rewrite this_awaitHook_finish.
Qed.

Lemma reachable_resolvers_bound c w : reachable c w → resolvers_bound w.
Proof.
  intros [l Hl]. assert (resolvers_bound (init c)) as H0 by done.
  revert Hl H0. generalize (init c). induction l as [|a l IH]; intros w0 Hl H0; simpl in Hl.
  - by simplify_eq.
  - destruct (step w0 a) as [w1|] eqn:Hs; [|done]. simpl in Hl.
    eapply IH; [exact Hl|]. eapply step_resolvers_bound; eauto.
Qed.

(** ** What a step does to the signals *)

Lemma promises_awaitHook_finish c p i d k lg w :
  promises (finish c (awaitHook p i d k lg w)) = promises w.
Proof.
  unfold awaitHook. by destruct (hook p i (config (this w))) as [[| e | e]|].
Qed.

Lemma promises_nativeClose n r w : promises (nativeClose n r w) = promises w.
Proof.
  unfold nativeClose. destruct (nodes w !! n) as [d|]; [|done].
  by destruct (hasAttribute "open" d).
Qed.

Lemma promises_resolve p v w q :
  q ≠ p → promises (resolve p v w) !! q = promises w !! q.
Proof.
  intros Hne. unfold resolve. destruct (promises w !! p) as [[|]|]; simpl; try done.
  by apply list_lookup_insert_ne.
Qed.

Lemma length_promises_resolve p v w :
  length (promises (resolve p v w)) = length (promises w).
Proof.
  unfold resolve. destruct (promises w !! p) as [[|]|]; simpl; try done.
  apply length_insert.
Qed.

Ltac same :=
  match goal with
  | Hsame : ∀ v : World, _ |- signals_ok ?v ∧ _ => apply (Hsame v)
  end.

(** What a step does to the promises: the signals stay well formed, and a
    promise that is no signal keeps its state and never becomes one. *)
Lemma step_signals (w w' : World) (a : Action) :
  signals_ok w → step w a = Some w' →
  signals_ok w'
  ∧ ∀ p, abandoned p w → abandoned p w' ∧ promises w' !! p = promises w !! p.
Proof.
  intros ([Hb1 Hb2] & Ho & Hc & Hne) Hstep.
  assert (Hsame : ∀ v : World, this v = this w → promises v = promises w →
            signals_ok v ∧ ∀ p, abandoned p w → abandoned p v ∧ promises v !! p = promises w !! p).
  { intros v Ht Hp. unfold signals_ok, resolvers_bound, abandoned. rewrite Ht, Hp.
    repeat split; try done; tauto. }
  destruct a as [i p | kind | n target | n | sg waiter | | k |]; simpl in Hstep.
  - simplify_eq. unfold open. simpl.
    destruct (has_property i (config (this w))); simpl; [|by same].
    destruct (isOpen (this w)); simpl.
    { unfold signals_ok, resolvers_bound, abandoned. simpl. repeat split; try done; tauto. }
    unfold signals_ok, resolvers_bound, abandoned.
    rewrite this_awaitHook_finish, promises_awaitHook_finish. simpl.
    repeat split; try done; tauto.
  - simplify_eq. unfold close. destruct (dialog (this w)); simpl; [|by same].
    same; [apply this_nativeClose | apply promises_nativeClose].
  - case_bool_decide; simplify_eq. unfold onLightDismiss, close.
    destruct (bool_decide (nodeName target = "DIALOG")); [|by same].
    destruct (dialog (this w)); simpl; [|by same].
    same; [apply this_nativeClose | apply promises_nativeClose].
  - simplify_eq. same; [apply this_nativeClose | apply promises_nativeClose].
  - simplify_eq. same; unfold awaitPromise;
      by destruct (promises w !! signal sg w) as [[v|]|].
  - destruct (microtasks w) as [|[c f r|sg wt v] rest]; simplify_eq; [|by same].
    destruct f; simpl.
    + destruct r; simpl; by same.
    + destruct (dialog (this w)); simpl; [|by same].
      unfold showModal. simpl. destruct (nodes w !! n) as [d|]; [|by same].
      destruct (hasAttribute "open" d); [by same|].
      destruct (isConnected d); by same.
    + destruct (dialog (this w)) as [n|]; simpl.
      2:{ unfold signals_ok, resolvers_bound, abandoned. simpl. repeat split; try done; tauto. }
      unfold signals_ok, resolvers_bound, abandoned.
      rewrite this_awaitHook_finish, promises_awaitHook_finish. simpl.
      rewrite this_resolve, length_promises_resolve. simpl.
      split; [done|]. intros q (Hq & Hqo & Hqc). split; [done|].
      rewrite promises_resolve; [done | simpl; congruence].
    + destruct r; simpl; [by same|].
      unfold signals_ok, resolvers_bound, abandoned. simpl.
      rewrite length_app. simpl.
      split; [repeat split; try done; lia|]. intros q (Hq & Hqo & Hqc).
      split; [repeat split; try done; lia|]. by rewrite lookup_app_l.
    + destruct r; simpl; by same.
    + unfold signals_ok, resolvers_bound, abandoned.
      rewrite this_awaitHook_finish, promises_awaitHook_finish. simpl.
      rewrite this_resolve, length_promises_resolve. simpl.
      split; [done|]. intros q (Hq & Hqo & Hqc). split; [done|].
      rewrite promises_resolve; [done | simpl; congruence].
    + destruct r; simpl; [by same|].
      unfold signals_ok, resolvers_bound, abandoned. simpl.
      rewrite length_app. simpl.
      split; [repeat split; try done; lia|]. intros q (Hq & Hqo & Hqc).
      split; [repeat split; try done; lia|]. by rewrite lookup_app_l.
  - destruct (pending w !! k); simplify_eq. by same.
  - destruct (microtasks w); [|done]. destruct (closeEvents w); simplify_eq.
    unfold onDialogClose. simpl. destruct (dialog (this w)); simpl; [|by same].
    unfold signals_ok, resolvers_bound, abandoned.
    rewrite this_awaitHook_finish, promises_awaitHook_finish. simpl.
    repeat split; try done; tauto.
Qed.

Lemma run_signals (l : list Action) (w w' : World) :
  signals_ok w → run l w = Some w' →
  signals_ok w'
  ∧ ∀ p, abandoned p w → abandoned p w' ∧ promises w' !! p = promises w !! p.
Proof.
  revert w. induction l as [|a l IH]; intros w Hok Hrun; simpl in Hrun.
  - by simplify_eq.
  - destruct (step w a) as [w1|] eqn:Hs; [|done]. simpl in Hrun.
    destruct (step_signals _ _ _ Hok Hs) as [Hok1 Hab1].
    destruct (IH _ Hok1 Hrun) as [Hok' Hab']. split; [done|].
    intros p Hp. destruct (Hab1 p Hp) as [Hp1 Heq1].
    destruct (Hab' p Hp1) as [Hp' Heq']. split; [done|]. congruence.
Qed.

Lemma init_signals_ok (c : Config) : signals_ok (init c).
Proof. unfold signals_ok, resolvers_bound. simpl. repeat split; lia. Qed.

(** ** Undisturbed passes *)

Lemma run_cons a l w : run (a :: l) w = step w a ≫= run l.
Proof. reflexivity. Qed.

(** Runs, one step at a time and end to end. *)
Lemma run_step a l w w1 w' :
  step w a = Some w1 → run l w1 = Some w' → run (a :: l) w = Some w'.
Proof. intros H1 H2. simpl. rewrite H1. exact H2. Qed.

(** Symbolic execution of one step on a world given field by field. *)
Ltac unfold_code :=
  cbv beta iota zeta delta
    [step open resume onDialogClose close onLightDismiss nativeClose showModal
     awaitHook resolve awaitPromise initDialogNode newPromise rethrow finish signal
     set_id set_isOpen set_dialog set_opened set_closed set_nodes set_promises
     set_reactions set_microtasks set_pending set_closeEvents set_settled
     set_nextCall with_this effect log dispatchEvent on_node
     this nodes promises reactions microtasks pending closeEvents trace settled
     nextCall id config isOpen opened resolveOpened closed resolveClosed dialog
     fst snd].

Ltac use_facts :=
  repeat match goal with
         | H : hook _ _ _ = _ |- _ => rewrite H
         | H : has_property _ _ = _ |- _ => rewrite H
         | H : _ !! _ = _ |- _ => rewrite H
         end.

Ltac advance :=
  eapply run_step;
  [ unfold_code; use_facts; simpl;
    rewrite ?lookup_last, ?alter_last, ?list_lookup_alter_eq; use_facts; simpl;
    unfold_code; use_facts; simpl;
    rewrite ?lookup_last, ?alter_last, ?list_lookup_alter_eq; use_facts; simpl;
    lazymatch goal with
    | |- Some (Build_World _ _ _ _ _ _ _ _ _ _) = _ => reflexivity
    end
  | ].

Lemma insert_snoc {A} (l : list A) (x y : A) :
  <[length l := y]> (l ++ [x]) = l ++ [y].
Proof. rewrite insert_app_r_alt by lia. by rewrite Nat.sub_diag. Qed.

Lemma alter_lookup_insert {A} (f : A → A) (l : list A) (i : nat) (x : A) :
  l !! i = Some x → alter f i l = <[i := f x]> l.
Proof.
  revert i. induction l as [|y l IH]; intros [|i] H; simplify_eq/=; [done|].
  f_equal. by apply IH.
Qed.

Lemma alter_insert_eq {A} (f : A → A) (l : list A) (i : nat) (y : A) :
  alter f i (<[i := y]> l) = <[i := f y]> l.
Proof.
  revert i. induction l as [|z l IH]; intros [|i]; simpl; try done.
  f_equal. apply IH.
Qed.

Lemma hook_of_registered p i c h :
  own c !! i = Some h → hook p i c = Hook.get p h.
Proof. intros H. unfold hook. by rewrite H. Qed.

Lemma length_fulfil p v ps : length (fulfil p v ps) = length ps.
Proof. unfold fulfil. destruct (ps !! p) as [[x|]|]; try done. apply length_insert. Qed.

(** The signal after its resolver was called. *)
Lemma lookup_fulfil p v ps :
  fulfil p v ps !! p
  = match ps !! p with Some None => Some (Some v) | earlier => earlier end.
Proof.
  unfold fulfil. destruct (ps !! p) as [[x|]|] eqn:H; try done.
  apply list_lookup_insert_eq. by eapply lookup_lt_Some.
Qed.

Lemma lookup_snoc_fulfil p v ps (y : option nat) :
  (fulfil p v ps ++ [y]) !! length ps = Some y.
Proof. rewrite <- (length_fulfil p v ps). apply lookup_last. Qed.

(** The nine steps of an undisturbed open, executed: the end world and the
    two events. *)
Lemma open_schedule_run (w : World) (i : string) (parameters : Params) :
  has_property i (config (this w)) = true →
  succeeds (hook POpening i (config (this w))) →
  succeeds (hook POpened i (config (this w))) →
  isOpen (this w) = false →
  quiescent w →
  resolveOpened (this w) = opened (this w) →
  ∃ tr, run (open_schedule i parameters) w = Some (after_open i tr w)
      ∧ omap event_of tr
        = events w ++ [(POpening, i, length (nodes w)); (POpened, i, length (nodes w))].
Proof.
  intros Hhp Hh1 Hh2 Hio (Hm & Hp & Hr & He) Hb1.
  unfold after_open, events, fulfil.
  destruct (promises w !! opened (this w)) as [[v|]|] eqn:Hpr;
    destruct w as [[wid cfg io op rop cl rcl dl] ns ps rs ms pd ce tr st nc];
    simpl in * |-; subst;
    destruct Hh1 as [Hh1 | Hh1]; destruct Hh2 as [Hh2 | Hh2];
    (eexists; split;
     [cbv delta [open_schedule]; do 9 advance; simpl; rewrite ?length_insert;
      reflexivity|]);
    simpl; rewrite ?omap_app; simpl; rewrite <- ?app_assoc, ?app_nil_r; reflexivity.
Qed.

(** The eight steps of an undisturbed close, executed: the end world and
    the two events. *)
Lemma close_schedule_run (w : World) (kind : option string) (d : nat) (rv : string) :
  isOpen (this w) = true →
  dialog (this w) = Some d →
  node d w = Some (shown_surface rv) →
  succeeds (hook PClosing (id (this w)) (config (this w))) →
  succeeds (hook PClosed (id (this w)) (config (this w))) →
  quiescent w →
  resolveClosed (this w) = closed (this w) →
  ∃ tr, run (close_schedule kind) w = Some (after_close kind d tr w)
      ∧ omap event_of tr
        = events w ++ [(PClosing, id (this w), d); (PClosed, id (this w), d)].
Proof.
  intros Hio Hd Hnode Hh1 Hh2 (Hm & Hp & Hr & He) Hb2.
  unfold node, shown_surface in Hnode. unfold after_close, events, fulfil.
  destruct (promises w !! closed (this w)) as [[v|]|] eqn:Hpr;
    destruct w as [[wid cfg io op rop cl rcl dl] ns ps rs ms pd ce tr st nc];
    simpl in * |-; subst;
    destruct Hh1 as [Hh1 | Hh1]; destruct Hh2 as [Hh2 | Hh2];
    (eexists; split;
     [cbv delta [close_schedule]; do 8 advance; simpl;
      rewrite (alter_lookup_insert _ _ _ _ Hnode), !alter_insert_eq, ?length_insert;
      reflexivity|]);
    simpl; rewrite ?omap_app; simpl; rewrite <- ?app_assoc, ?app_nil_r; reflexivity.
Qed.

(** An undisturbed open succeeds: in every reachable world in which the
    controller is not open and nothing is queued, for every registered kind
    whose opening and opened hooks do not fail, the open schedule ends in a
    world that is [opened_by] it. *)
Theorem open_pass_succeeds (c : Config) (l : list Action) (w : World)
    (i : string) (parameters : Params) (h : Hook.t) :
  run l (init c) = Some w →
  own (config (this w)) !! i = Some h →
  succeeds (Hook.opening h) →
  succeeds (Hook.opened h) →
  isOpen (this w) = false →
  quiescent w →
  ∃ w', opened_by i parameters w w'.
Proof.
  intros Hreach Hown Ho1 Ho2 Hio Hq.
  destruct (run_signals _ _ _ (init_signals_ok c) Hreach)
    as [([Hb1 Hb2] & Hlt & Hlt' & Hne) _].
  destruct (open_schedule_run w i parameters) as (tr & Hrun & Hev); try done.
  { apply has_property_registered. eexists; eauto. }
  { unfold hook. rewrite Hown. exact Ho1. }
  { unfold hook. rewrite Hown. exact Ho2. }
  exists (after_open i tr w). split; [exact Hrun|].
  unfold events, resolvers_bound, quiescent. simpl. fold (events w).
  rewrite Hev, length_app, length_fulfil.
  rewrite lookup_app_l, lookup_fulfil, lookup_snoc_fulfil by (by rewrite length_fulfil).
  simpl. repeat match goal with |- _ ∧ _ => split end; try reflexivity; lia.
Qed.

Lemma open_pass_succeeds_witness :
  ∃ w', opened_by "bar" (Some "x")
          (world_after (failing_config PClosed (HThrows (Thrown "boom")))
             (open_pass "bar" ++ CallClose None :: closing_pass)) w'.
Proof.
  apply (open_pass_succeeds (failing_config PClosed (HThrows (Thrown "boom")))
           (open_pass "bar" ++ CallClose None :: closing_pass) _ "bar" (Some "x")
           (Hook.make None None None (Some (HThrows (Thrown "boom")))));
    try (vm_compute; reflexivity); try (left; reflexivity);
    repeat split.
Defined.

(** An undisturbed close returns the controller to rest: in every reachable
    world in which the controller is open, owns the shown surface [d] and
    nothing is queued, when the closing and closed hooks of the bound kind
    do not fail, the close schedule ends in a world that is [closed_by]
    it. *)
Theorem close_pass_returns_to_idle (c : Config) (l : list Action) (w : World)
    (kind : option string) (d : nat) (rv : string) :
  run l (init c) = Some w →
  isOpen (this w) = true →
  dialog (this w) = Some d →
  node d w = Some (shown_surface rv) →
  succeeds (hook PClosing (id (this w)) (config (this w))) →
  succeeds (hook PClosed (id (this w)) (config (this w))) →
  quiescent w →
  ∃ w', closed_by kind d w w'.
Proof.
  intros Hreach Hio Hd Hnode Hh1 Hh2 Hq.
  destruct (run_signals _ _ _ (init_signals_ok c) Hreach)
    as [([Hb1 Hb2] & Hlt' & Hlt & Hne) _].
  destruct (close_schedule_run w kind d rv) as (tr & Hrun & Hev); try done.
  assert (Hd' : d < length (nodes w))
    by (eapply lookup_lt_Some; exact Hnode).
  exists (after_close kind d tr w). split; [exact Hrun|].
  unfold events, resolvers_bound, quiescent, node. simpl. fold (events w).
  rewrite Hev, length_app, length_fulfil, !length_insert, list_lookup_insert_eq by done.
  rewrite lookup_app_l, lookup_fulfil, lookup_snoc_fulfil by (by rewrite length_fulfil).
  simpl. repeat match goal with |- _ ∧ _ => split end; try reflexivity; try lia.
  intros n Hn. by rewrite list_lookup_insert_ne.
Qed.

Lemma close_pass_returns_to_idle_witness :
  ∃ w', closed_by (Some "custom") 1
          (world_after (failing_config POpened (HThrows (Thrown "boom")))
             (opening_pass "bar" ++ close_schedule None ++ opening_pass "bar")) w'.
Proof.
  apply (close_pass_returns_to_idle (failing_config POpened (HThrows (Thrown "boom")))
           (opening_pass "bar" ++ close_schedule None ++ opening_pass "bar")
           _ (Some "custom") 1 "");
    try (vm_compute; reflexivity); try (left; vm_compute; reflexivity);
    repeat split.
Defined.

Lemma run_app l1 l2 w : run (l1 ++ l2) w = run l1 w ≫= run l2.
Proof.
  revert w. induction l1 as [|a l1 IH]; intros w; simpl; [done|].
  destruct (step w a) as [w1|]; simpl; [apply IH | done].
Qed.

Lemma run_app_Some l1 l2 w w1 w2 :
  run l1 w = Some w1 → run l2 w1 = Some w2 → run (l1 ++ l2) w = Some w2.
Proof. intros H1 H2. rewrite run_app, H1. exact H2. Qed.

(** Round trip: opening, closing and opening the same kind again creates
    two surfaces; the first ends detached with the [closed] marker, the
    second is the one shown and owned, and the events of the two passes
    come in order. *)
Theorem reopen_creates_new_surface (w : World) (i : string)
    (parameters parameters' : Params) (kind : option string) (h : Hook.t) :
  own (config (this w)) !! i = Some h →
  all_succeed h →
  isOpen (this w) = false →
  quiescent w →
  resolvers_bound w →
  promises w !! opened (this w) = Some None →
  ∃ w', reopened_by i parameters kind parameters' w w'.
Proof.
  intros Hown (H1 & H2 & H3 & H4) Hio Hq [Hb1 Hb2] Hpr.
  assert (Hhp : has_property i (config (this w)) = true)
    by (apply has_property_registered; eexists; eauto).
  destruct (open_schedule_run w i parameters) as (tr1 & Hrun1 & Hev1); try done;
    rewrite ?(hook_of_registered _ _ _ _ Hown); try done.
  set (w1 := after_open i tr1 w) in *.
  destruct (close_schedule_run w1 kind (length (nodes w)) "") as (tr2 & Hrun2 & Hev2);
    try done; simpl; rewrite ?(hook_of_registered _ _ _ _ Hown); try done.
  { apply lookup_last. }
  set (w2 := after_close kind (length (nodes w)) tr2 w1) in *.
  destruct (open_schedule_run w2 i parameters') as (tr3 & Hrun3 & Hev3);
    try done; simpl; rewrite ?(hook_of_registered _ _ _ _ Hown); try done.
  exists (after_open i tr3 w2). split; [eauto using run_app_Some|].
  unfold events in *. simpl in Hev2, Hev3 |- *.
  rewrite Hev3, Hev2, Hev1, length_insert, length_app, insert_snoc, <- !app_assoc.
  simpl. replace (length (nodes w) + 1) with (S (length (nodes w))) by lia.
  repeat match goal with |- _ ∧ _ => split end; reflexivity.
Qed.

Lemma reopen_creates_new_surface_witness :
  ∃ w', reopened_by "foo" None None (Some "again") (init foo_config) w'.
Proof.
  apply (reopen_creates_new_surface (init foo_config) "foo" None (Some "again") None
           all_hooks);
    try (vm_compute; reflexivity);
    repeat split; right; reflexivity.
Defined.

(** ** Repeated and early close requests *)

(** An element that has been closed is not closed again. *)
Lemma nativeClose_twice n r1 r2 w :
  nativeClose n r2 (nativeClose n r1 w) = nativeClose n r1 w.
Proof.
  unfold nativeClose at 2 3.
  destruct (nodes w !! n) as [d|] eqn:Hn.
  - destruct (hasAttribute "open" d) eqn:Ho.
    + assert (hasAttribute "open" (setReturnValue r1 (removeAttribute "open" d)) = false)
        as Hgone by apply (hasAttribute_removeAttribute "open" d).
      unfold nativeClose. cbn [nodes set_closeEvents on_node set_nodes].
      rewrite list_lookup_alter_eq, Hn. cbn [fmap option_fmap option_map].
      by rewrite Hgone.
    + unfold nativeClose. by rewrite Hn, Ho.
  - unfold nativeClose. by rewrite Hn.
Qed.

(** After [close(kind)] a second [close] or a pointer-down changes nothing:
    the first reason stays the return value and one [close] event is
    queued. *)
Theorem second_close_changes_nothing (w : World) (kind kind' : option string)
    (n : nat) (target : Target) :
  run [CallClose kind; CallClose kind'] w = run [CallClose kind] w
  ∧ (n < length (nodes w) →
     run [CallClose kind; Mousedown n target] w = run [CallClose kind] w).
Proof.
  assert (Hlen : ∀ m r, length (nodes (nativeClose m r w)) = length (nodes w)).
  { intros m r. unfold nativeClose. destruct (nodes w !! m) as [d|]; [|done].
    destruct (hasAttribute "open" d); [|done]. simpl. by rewrite length_alter. }
  split; [|intros Hn]; simpl; unfold onLightDismiss, close;
    destruct (dialog (this w)) as [d|] eqn:Hd; simpl;
    rewrite ?this_nativeClose, ?Hd, ?Hlen, ?(bool_decide_eq_true_2 _ Hn); simpl;
    rewrite ?nativeClose_twice; try reflexivity.
  - destruct (bool_decide (nodeName target = "DIALOG")); simpl;
      rewrite ?this_nativeClose, ?Hd; simpl; rewrite ?nativeClose_twice; reflexivity.
  - destruct (bool_decide (nodeName target = "DIALOG")); simpl; rewrite ?Hd; reflexivity.
Qed.

(** [open] that passes its guards attaches a new, not yet shown, surface
    whatever the opening hook does. *)
Lemma open_creates_unshown_surface (w : World) (i : string) (parameters : Params) :
  has_property i (config (this w)) = true →
  isOpen (this w) = false →
  ∃ w1, step w (CallOpen i parameters) = Some w1
      ∧ dialog (this w1) = Some (length (nodes w))
      ∧ nodes w1 = nodes w ++ [interrupted_surface].
Proof.
  intros Hhp Hio. eexists. split; [reflexivity|].
  unfold open. simpl. rewrite Hhp, Hio. simpl.
  unfold awaitHook.
  destruct (hook _ _ _) as [[| e | e]|]; simpl; rewrite !alter_last; by split.
Qed.

(** A close requested right after [open], before the native show, is
    dropped: by [close], by a pointer-down on the new surface and by a
    native dismissal alike, the run goes on as if nothing had been asked. *)
Theorem close_before_show_is_dropped (w : World) (i : string) (parameters : Params)
    (kind : option string) (target : Target) (rest : list Action) :
  has_property i (config (this w)) = true →
  isOpen (this w) = false →
  run (CallOpen i parameters :: CallClose kind :: rest) w
  = run (CallOpen i parameters :: rest) w
  ∧ run (CallOpen i parameters :: Mousedown (length (nodes w)) target :: rest) w
    = run (CallOpen i parameters :: rest) w
  ∧ run (CallOpen i parameters :: Dismiss (length (nodes w)) :: rest) w
    = run (CallOpen i parameters :: rest) w.
Proof.
  intros Hhp Hio.
  destruct (open_creates_unshown_surface w i parameters Hhp Hio) as (w1 & Hs & Hd & Hn).
  assert (Hnc : ∀ r, nativeClose (length (nodes w)) r w1 = w1).
  { intros r. unfold nativeClose. by rewrite Hn, lookup_last. }
  assert (H1 : step w1 (CallClose kind) = Some w1).
  { unfold step, close. by rewrite Hd, Hnc. }
  assert (H2 : step w1 (Mousedown (length (nodes w)) target) = Some w1).
  { unfold step, onLightDismiss, close. rewrite Hn, length_app. simpl.
    rewrite bool_decide_eq_true_2 by lia.
    destruct (bool_decide (nodeName target = "DIALOG")); [|done].
    by rewrite Hd, Hnc. }
  assert (H3 : step w1 (Dismiss (length (nodes w))) = Some w1).
  { unfold step. by rewrite Hnc. }
  rewrite !run_cons, Hs. cbn [mbind option_bind]. rewrite !run_cons, H1, H2, H3. done.
Qed.

Lemma close_before_show_is_dropped_witness :
  run (CallOpen "foo" None :: CallClose None :: [Settle 0; Tick]) (init foo_config)
  = run (CallOpen "foo" None :: [Settle 0; Tick]) (init foo_config)
  ∧ run (CallOpen "foo" None :: Mousedown (length (nodes (init foo_config))) TSurface
         :: [Settle 0; Tick]) (init foo_config)
    = run (CallOpen "foo" None :: [Settle 0; Tick]) (init foo_config)
  ∧ run (CallOpen "foo" None :: Dismiss (length (nodes (init foo_config)))
         :: [Settle 0; Tick]) (init foo_config)
    = run (CallOpen "foo" None :: [Settle 0; Tick]) (init foo_config).
Proof.
  apply (close_before_show_is_dropped (init foo_config) "foo" None None TSurface
           [Settle 0; Tick]);
    vm_compute; reflexivity.
Defined.

(** ** The closed hook fails *)

Lemma settled_resolve p v w : settled (resolve p v w) = settled w.
Proof. unfold resolve. by destruct (promises w !! p) as [[|]|]. Qed.

(** The closed hook fails: the closed phase is committed, the handler ends
    rejected, and the surface stays attached and owned. *)
Theorem closed_hook_failure_keeps_surface
    (w : World) (c : nat) (i : string) (d : nat) (before : DialogNode)
    (rest : list Job) (b : HookBehaviour) (e : JsError) :
  hook PClosed i (config (this w)) = Some b →
  b = HThrows e ∨ b = HRejects e →
  microtasks w = Continue c (CloseAwaitAnimations i d) None :: rest →
  node d w = Some before →
  closed_hook_interrupts b e c i d before w.
Proof.
  intros Hh Hb Hq Hnode.
  assert (Hn : node d (on_node (setAttribute "closed") d
                         (on_node (removeAttribute "closing") d w))
               = Some (setAttribute "closed" (removeAttribute "closing" before)))
    by (do 2 (apply node_on_node); exact Hnode).
  unfold closed_hook_interrupts, step, resume. rewrite Hq.
  destruct (resolve_view (resolveClosed (this w)) d
              (on_node (setAttribute "closed") d
                 (on_node (removeAttribute "closing") d
                    (set_isOpen false (set_microtasks rest w)))))
    as (Rt & Rn & Re & Rtr & Rp & Rl).
  unfold awaitHook. simpl. rewrite Rt. simpl. rewrite Hh.
  destruct Hb as [-> | ->]; simpl;
    (eexists; exists (setAttribute "closed" (removeAttribute "closing" before));
     split; [reflexivity|]); simpl;
    unfold node in *; simpl in *; rewrite ?Rt, ?Rn, ?Rp, ?Rtr, ?settled_resolve; simpl;
    repeat match goal with |- _ ∧ _ => split end;
    try reflexivity; try exact Hn;
    try apply hasAttribute_setAttribute;
    intros w2 rest2 Hq2; rewrite Hq2; reflexivity.
Qed.

Lemma closed_hook_failure_keeps_surface_witness :
  closed_hook_interrupts (HRejects (Thrown "boom")) (Thrown "boom") 1 "bar" 0
    {| attributes := ["app-tools"; "closing"]; isConnected := true;
       returnValue := "programmatic" |}
    (world_after (failing_config PClosed (HRejects (Thrown "boom")))
       (open_schedule "bar" None ++ [CallClose None; FireClose; Settle 0; Tick; Settle 0])).
Proof.
  apply (closed_hook_failure_keeps_surface _ 1 "bar" 0 _ []
           (HRejects (Thrown "boom")) (Thrown "boom"));
    try (vm_compute; reflexivity).
  right. reflexivity.
Defined.

(** ** Unregistered kinds *)

(** A kind that is not registered and whose name the config does not inherit
    is refused: the call ends rejected with the [Error] of the guard and
    nothing else changes. *)
Theorem unregistered_kind_is_refused (w : World) (i : string) (parameters : Params) :
  own (config (this w)) !! i = None →
  inheritsObjectPrototype (config (this w)) = false ∨ i ∉ object_prototype_keys →
  step w (CallOpen i parameters)
  = Some (set_settled
            (settled w ++ [(nextCall w, Some (Error ("No dialog configured for id: " +:+ i)))])
            (set_nextCall (S (nextCall w)) w)).
Proof.
  intros Hown Hproto. apply (open_unknown_rejects (config (this w))); [done|].
  unfold has_property. rewrite Hown. simpl.
  destruct Hproto as [-> | Hnot]; [done|].
  rewrite (bool_decide_eq_false_2 _ Hnot). apply andb_false_r.
Qed.

Lemma unregistered_kind_is_refused_witness :
  step (init foo_config) (CallOpen "nope" None)
  = Some (set_settled
            (settled (init foo_config)
             ++ [(nextCall (init foo_config),
                  Some (Error ("No dialog configured for id: " +:+ "nope")))])
            (set_nextCall (S (nextCall (init foo_config))) (init foo_config))).
Proof.
  apply (unregistered_kind_is_refused (init foo_config) "nope" None).
  - vm_compute. reflexivity.
  - right. apply (bool_decide_eq_false_1 ("nope" ∈ object_prototype_keys)).
    vm_compute. reflexivity.
Defined.

(** ** The signals *)

(** In every reachable world the opened and the closed signal are two
    different promises, and each resolver resolves the signal it is stored
    with. *)
Theorem signals_stay_well_formed (c : Config) (l : list Action) (w : World) :
  run l (init c) = Some w → signals_ok w.
Proof.
  intros Hrun. eapply run_signals; [apply init_signals_ok | exact Hrun].
Qed.

Lemma signals_stay_well_formed_witness :
  signals_ok (world_after foo_config (open_pass "foo")).
Proof.
  apply (signals_stay_well_formed foo_config (open_pass "foo")).
  vm_compute. reflexivity.
Defined.

(** The closed signal that is current while [open] runs is replaced when
    [open] returns, and nothing resolves it afterwards: whoever took it
    before is never resumed. *)
Theorem replaced_closed_signal_is_dead
    (c : Config) (l l' : list Action) (w w1 w' : World)
    (c0 : nat) (i : string) (parameters : Params) (rest : list Job) :
  run l (init c) = Some w →
  microtasks w = Continue c0 (OpenAwaitOpenedHook i parameters) None :: rest →
  step w Tick = Some w1 →
  run l' w1 = Some w' →
  closed (this w1) ≠ closed (this w)
  ∧ closed (this w') ≠ closed (this w)
  ∧ promises w' !! closed (this w) = promises w !! closed (this w).
Proof.
  intros Hrun Hq Hstep Hrun'.
  destruct (run_signals _ _ _ (init_signals_ok c) Hrun) as [Hok _].
  pose proof Hok as ([Hb1 Hb2] & Ho & Hc & Hne).
  assert (Hab : abandoned (closed (this w)) w1 ∧ signals_ok w1
                ∧ promises w1 !! closed (this w) = promises w !! closed (this w)).
  { unfold step in Hstep. rewrite Hq in Hstep. simpl in Hstep. simplify_eq.
    unfold abandoned, signals_ok, resolvers_bound. simpl. rewrite length_app. simpl.
    repeat split; try done; try lia. by rewrite lookup_app_l. }
  destruct Hab as (Hab & Hok1 & Heq1).
  destruct (run_signals _ _ _ Hok1 Hrun') as [_ Hab'].
  destruct (Hab' _ Hab) as [(_ & _ & Hne') Heq'].
  destruct Hab as (_ & _ & Hne1).
  repeat split; try congruence.
Qed.

Lemma replaced_closed_signal_is_dead_witness :
  closed (this (world_after foo_config (readme_flow ++ [Tick])))
  ≠ closed (this (world_after foo_config readme_flow))
  ∧ closed (this (world_after foo_config (readme_flow ++ Tick :: close_schedule None)))
    ≠ closed (this (world_after foo_config readme_flow))
  ∧ promises (world_after foo_config (readme_flow ++ Tick :: close_schedule None))
    !! closed (this (world_after foo_config readme_flow))
    = promises (world_after foo_config readme_flow)
      !! closed (this (world_after foo_config readme_flow)).
Proof.
  apply (replaced_closed_signal_is_dead foo_config readme_flow (close_schedule None)
           _ _ _ 0 "foo" None []);
    vm_compute; reflexivity.
Defined.

(** The README flow, to its end: the surface is closed and detached, every
    queue is empty, and the caller still waits on a pending promise. *)
Example readme_flow_never_resumes :
  ∃ w, run (readme_flow ++ Tick :: close_schedule None) (init foo_config) = Some w
     ∧ dialog (this w) = None
     ∧ reactions w = [(1, (SClosed, 7))]
     ∧ promises w !! 1 = Some None
     ∧ microtasks w = [] ∧ pending w = [] ∧ closeEvents w = [].
Proof. evaluate. Qed.

(** ** The open flag *)

(** In a run that is not interleaved with itself, [isOpen] is true exactly
    while the owned surface is attached with the [opened] or the [closing]
    marker. *)
Theorem isOpen_means_opened_or_closing (c : Config) (l : list Action) (w : World) :
  disciplined_run l (init c) = Some w →
  isOpen (this w) = true
  ↔ ∃ d nd, dialog (this w) = Some d ∧ node d w = Some nd ∧ isConnected nd = true
            ∧ (lifecycle_markers nd = ["opened"] ∨ lifecycle_markers nd = ["closing"]).
Proof.
  intros Hrun.
  destruct (disciplined_run_staged l (init c) w) as (s & olds & Hst);
    [by exists Idle, []; apply init_staged | exact Hrun |].
  destruct Hst as (Ho & Hi & He & Hl & Hn). rewrite Hi. unfold node.
  destruct s; simpl in *;
    try (destruct Hn as (Hd & rv & i0 & Hn & Hlast); rewrite Hn, Hd);
    try (destruct Hn as [Hn Hd]; rewrite Hd);
    (split;
     [ intros H; try discriminate;
       do 2 eexists; rewrite lookup_last; repeat split; auto
     | intros (d & nd & Hd' & Hnd & Hc & Hm); try discriminate; try reflexivity;
       simplify_eq; rewrite lookup_last in Hnd; simplify_eq;
       destruct Hm as [Hm | Hm]; discriminate ]).
Qed.

Lemma isOpen_means_opened_or_closing_witness :
  isOpen (this (world_after foo_config (open_pass "foo" ++ [CallClose None; FireClose])))
  = true
  ↔ ∃ d nd,
      dialog (this (world_after foo_config
                      (open_pass "foo" ++ [CallClose None; FireClose]))) = Some d
      ∧ node d (world_after foo_config (open_pass "foo" ++ [CallClose None; FireClose]))
        = Some nd
      ∧ isConnected nd = true
      ∧ (lifecycle_markers nd = ["opened"] ∨ lifecycle_markers nd = ["closing"]).
Proof.
  apply (isOpen_means_opened_or_closing foo_config
           (open_pass "foo" ++ [CallClose None; FireClose])).
  vm_compute. reflexivity.
Defined.

(** ** Opening again before the close sequence has ended *)

(** The last segment of the close handler releases whatever surface the
    controller holds, not the one it detaches. *)
Theorem late_release_orphans_new_surface
    (w : World) (c : nat) (i : string) (d d' : nat) (nd : DialogNode)
    (rest : list Job) :
  microtasks w = Continue c (CloseAwaitClosedHook i d) None :: rest →
  dialog (this w) = Some d' →
  d' ≠ d →
  node d' w = Some nd →
  late_release c i d d' nd w.
Proof.
  intros Hq Hd Hne Hnode. unfold late_release, step. rewrite Hq. simpl.
  eexists. split; [reflexivity|]. unfold node in *. simpl.
  rewrite list_lookup_alter_ne by done.
  repeat match goal with |- _ ∧ _ => split end; try done.
  intros w2 c2 i2 p2 rest2 Hd2 Hq2. rewrite Hq2. simpl. by rewrite Hd2.
Qed.

Lemma late_release_orphans_new_surface_witness :
  late_release 1 "foo" 0 1 interrupted_surface (world_after foo_config reopen_on_closed).
Proof.
  apply (late_release_orphans_new_surface _ 1 "foo" 0 1 interrupted_surface []);
    try (vm_compute; reflexivity).
  discriminate.
Defined.

(** Awaiting the closed signal and opening again, to its end: [open] is
    rejected with a [TypeError] and its surface stays attached, unowned. *)
Example reopen_on_closed_signal_fails :
  ∃ w, run (reopen_on_closed ++ [Tick; Settle 0; Tick; Settle 0; Tick]) (init foo_config)
       = Some w
     ∧ settled w = [(0, None); (1, None); (2, Some TypeError)]
     ∧ dialog (this w) = None
     ∧ attached w = [1]
     ∧ microtasks w = [] ∧ pending w = [] ∧ closeEvents w = [].
Proof. evaluate. Qed.

(** ** One surface *)

Lemma single_surface_when_disciplined_witness :
  dialog (this (world_after foo_config [CallOpen "foo" None])) = Some 0.
Proof.
  apply (single_surface_when_disciplined foo_config [CallOpen "foo" None] _ 0
           interrupted_surface);
    vm_compute; reflexivity.
Defined.

(** ** The stylesheet of the module *)

(** What a search returns matches the selector. *)
Lemma findIn_matches (q : bool) (e x : Styles.Element) :
  Styles.findIn q e = Some x → Styles.matches q x = true.
Proof.
  revert e x. fix IH 1. intros [n i a h cs] x. simpl.
  destruct (Styles.matches q (Styles.El n i a h cs)) eqn:Hm.
  - intros [= <-]. exact Hm.
  - clear Hm. induction cs as [|c cs IHcs]; [discriminate|].
    destruct (Styles.findIn q c) as [y|] eqn:Hc.
    + intros [= <-]. exact (IH c y Hc).
    + exact IHcs.
Qed.

Lemma querySelector_matches (q : bool) (l : list Styles.Element) (x : Styles.Element) :
  Styles.querySelector q l = Some x → Styles.matches q x = true.
Proof.
  induction l as [|c l IH]; simpl; [discriminate|].
  destruct (Styles.findIn q c) as [y|] eqn:Hc; [|exact IH].
  intros [= <-]. exact (findIn_matches q c y Hc).
Qed.

(** The element the module creates matches its own selector, in either
    mode. *)
Lemma dialogStyles_matches (q : bool) : Styles.matches q Styles.dialogStyles = true.
Proof. destruct q; vm_compute; reflexivity. Qed.

(** Loading the module installs the style sheet once: in a document with a
    head, in quirks mode or not, the module loads without an error;
    afterwards the head has an element that matches the selector (a [style]
    element with the [app-tools] attribute whose id is [dialog-styles], up
    to ASCII case in quirks mode), which is the new element, put first,
    exactly when there was no match before; the elements that were there
    are still there, in their order; and loading the module again changes
    nothing. *)
Theorem stylesheet_installed_once (q : bool) (h : list Styles.Element) :
  ∃ h' e,
    Styles.loadModule {| Styles.quirksMode := q; Styles.head := Some h |}
    = inr {| Styles.quirksMode := q; Styles.head := Some h' |}
    ∧ Styles.loadModule {| Styles.quirksMode := q; Styles.head := Some h' |}
      = inr {| Styles.quirksMode := q; Styles.head := Some h' |}
    ∧ Styles.querySelector q h' = Some e
    ∧ Styles.localName e = "style"
    ∧ APP_TOOLS ∈ Styles.attributeNames e
    ∧ Styles.idMatches q (Styles.elementId e) Styles.DIALOG_STYLES_ID = true
    ∧ match Styles.querySelector q h with
      | None => h' = Styles.dialogStyles :: h ∧ e = Styles.dialogStyles
      | Some found => h' = h ∧ e = found
      end.
Proof.
  assert (Hsel : ∀ e, Styles.matches q e = true →
            Styles.localName e = "style"
            ∧ APP_TOOLS ∈ Styles.attributeNames e
            ∧ Styles.idMatches q (Styles.elementId e) Styles.DIALOG_STYLES_ID = true).
  { intros e He. unfold Styles.matches in He.
    apply andb_prop in He as [He Hid]. apply andb_prop in He as [Hn Ha].
    apply bool_decide_eq_true_1 in Hn, Ha. done. }
  unfold Styles.loadModule. simpl.
  destruct (Styles.querySelector q h) as [e|] eqn:Hq.
  - exists h, e. rewrite Hq.
    destruct (Hsel e (querySelector_matches q h e Hq)) as (H1 & H2 & H3). done.
  - exists (Styles.dialogStyles :: h), Styles.dialogStyles.
    assert (Hf : Styles.querySelector q (Styles.dialogStyles :: h)
                 = Some Styles.dialogStyles).
    { simpl. by rewrite dialogStyles_matches. }
    rewrite Hf.
    destruct (Hsel _ (dialogStyles_matches q)) as (H1 & H2 & H3). done.
Qed.

(** In a document in quirks mode a style element whose id is written in
    upper case is the one the selector finds, and the module adds none. *)
Example quirks_mode_finds_upper_case_id :
  let present := Styles.El "style" "DIALOG-STYLES" [APP_TOOLS; "id"] "" [] in
  Styles.loadModule {| Styles.quirksMode := true; Styles.head := Some [present] |}
  = inr {| Styles.quirksMode := true; Styles.head := Some [present] |}
  ∧ Styles.loadModule {| Styles.quirksMode := false; Styles.head := Some [present] |}
    = inr {| Styles.quirksMode := false;
             Styles.head := Some [Styles.dialogStyles; present] |}
  ∧ Styles.loadModule {| Styles.quirksMode := false; Styles.head := None |}
    = inl TypeError.
Proof. repeat split. Qed.
